(** * NYCParking: sign-description parser, next-cleaning calculator and
    street endpoint

    A shallow embedding of [backend/parser.py], [backend/scheduler.py] and
    the two functions of [backend/main.py] that fetch the signs and group
    them into streets.

    - Python [int] is [Z]; a [str] is a [list ascii]; a [set] of ints is a
      [gset Z]; the [DAYS_OF_WEEK] dict, whose insertion order the code
      iterates, is an association list.
    - A Python [float] result is [Fin q] for a rational [q], or [Inf] for
      [float("inf")].  The only float operation of the calculator is the
      division of an integer number of minutes by [60.0]; it is modelled
      exactly and kept in lowest terms, so that [0.0] is [Fin 0] and
      [164.0] is [Fin 164].
    - What [main.py] takes from outside is a parameter: the responses of
      the server, the projection of coordinates, the distance formula,
      rounding, and the clock.  The distance formula can raise.
    - Exceptions are explicit: a computation is [Ok v] or [Raise e].
    - Character classes, case mapping and case-insensitive matching agree
      with Python's on code points below 128; the characters 128..255 of
      [ascii] are treated as caseless symbols outside every class. *)

From Stdlib Require Import ZArith QArith List Ascii String Bool Lqa.
From stdpp Require Import base tactics decidable list numbers gmap sorting.
Import ListNotations.

Local Open Scope Z_scope.

(** ** Data model *)

(** [parser.py], [CleaningSchedule] dataclass. *)
Record CleaningSchedule := mkSchedule {
  days : list Z;          (* 0=Monday .. 6=Sunday *)
  start_hour : Z;
  start_minute : Z;
  end_hour : Z;
  end_minute : Z
}.

(** What [hours_until_next_cleaning] reads of a [datetime]: [now.weekday()],
    [now.hour] and [now.minute].  Attaching the time zone to a naive [now]
    changes none of the three; reading the clock when [now] is omitted is
    left to the caller. *)
Record datetime := mkDatetime {
  weekday : Z;
  hour : Z;
  minute : Z
}.

(** The ranges Python guarantees for a [datetime]. *)
Definition datetime_wf (now : datetime) : Prop :=
  0 <= weekday now < 7 /\ 0 <= hour now < 24 /\ 0 <= minute now < 60.

Inductive pyfloat :=
| Fin (q : Q)
| Inf.

(** [n / 60.0] for an integer [n]. *)
Definition truediv60 (n : Z) : Q := Qred (n # 60).

Definition start_minutes (schedule : CleaningSchedule) : Z :=
  start_hour schedule * 60 + start_minute schedule.

Definition end_minutes (schedule : CleaningSchedule) : Z :=
  end_hour schedule * 60 + end_minute schedule.

Definition current_minutes (now : datetime) : Z :=
  hour now * 60 + minute now.

(** ** scheduler.py *)

Module Scheduler.

(** The body of [for day_offset in range(8)], over the offsets still to be
    visited; [continue] is the recursive call and falling out of the loop is
    the empty list. *)
Fixpoint scan (schedule : CleaningSchedule) (current_weekday current_minutes
    start_minutes end_minutes : Z) (offsets : list Z) : pyfloat :=
  match offsets with
  | [] => Inf
  | day_offset :: rest =>
    let continue :=
      scan schedule current_weekday current_minutes start_minutes end_minutes rest in
    let check_day := (current_weekday + day_offset) mod 7 in
    if decide (check_day ∉ days schedule) then continue
    else if decide (day_offset = 0) then
      if decide (start_minutes <= current_minutes < end_minutes) then Fin 0
      else if decide (current_minutes < start_minutes) then
        Fin (truediv60 (start_minutes - current_minutes))
      else continue
    else
      let minutes_until := (day_offset * 24 * 60) + start_minutes - current_minutes in
      Fin (truediv60 minutes_until)
  end.

Definition hours_until_next_cleaning (schedule : CleaningSchedule)
    (now : datetime) : pyfloat :=
  let current_weekday := weekday now in
  let current_minutes := hour now * 60 + minute now in
  let start_minutes := start_hour schedule * 60 + start_minute schedule in
  let end_minutes := end_hour schedule * 60 + end_minute schedule in
  scan schedule current_weekday current_minutes start_minutes end_minutes
       (seqZ 0 8).

End Scheduler.

(** ** Exceptions *)

Inductive exn := KeyError | ValueError.

Inductive result (A : Type) :=
| Ok (a : A)
| Raise (e : exn).
Arguments Ok {A} a.
Arguments Raise {A} e.

#[global] Instance result_ret : MRet result := fun A a => Ok a.
#[global] Instance result_bind : MBind result := fun A B f m =>
  match m with
  | Ok a => f a
  | Raise e => Raise e
  end.

(** ** str *)

Abbreviation text := (list ascii).

Definition str (literal : string) : text := list_ascii_of_string literal.

Definition code (c : ascii) : N := N_of_ascii c.

Definition between (lo hi : N) (c : ascii) : bool :=
  ((lo <=? code c) && (code c <=? hi))%N.

(** [c.isdigit()], and the class [\d]. *)
Definition isdigit (c : ascii) : bool := between 48 57 c.

(** [c.isspace()], and the class [\s]: tab, line feed, vertical tab, form
    feed, carriage return, the four separators 0x1c..0x1f, and space. *)
Definition isspace (c : ascii) : bool :=
  between 9 13 c || between 28 32 c.

Definition isupper (c : ascii) : bool := between 65 90 c.
Definition islower (c : ascii) : bool := between 97 122 c.

(** The class [\w]: letters, digits and the underscore. *)
Definition isword (c : ascii) : bool :=
  isupper c || islower c || isdigit c || (code c =? 95)%N.

Definition upper_char (c : ascii) : ascii :=
  if islower c then ascii_of_N (code c - 32) else c.

Definition lower_char (c : ascii) : ascii :=
  if isupper c then ascii_of_N (code c + 32) else c.

(** [t.upper()] *)
Definition upper (t : text) : text := map upper_char t.

Definition char_eqb (a b : ascii) : bool := (code a =? code b)%N.

(** [t.startswith(prefix)] *)
Fixpoint startswith (prefix t : text) : bool :=
  match prefix, t with
  | [], _ => true
  | _ :: _, [] => false
  | p :: prefix', c :: t' => char_eqb p c && startswith prefix' t'
  end.

(** [t.endswith(suffix)] *)
Definition endswith (suffix t : text) : bool :=
  startswith (rev suffix) (rev t).

(** [sub in t] *)
Fixpoint contains (sub t : text) : bool :=
  startswith sub t ||
  match t with
  | [] => false
  | _ :: t' => contains sub t'
  end.

Fixpoint lstrip (t : text) : text :=
  match t with
  | [] => []
  | c :: t' => if isspace c then lstrip t' else t
  end.

(** [t.strip()] *)
Definition strip (t : text) : text := rev (lstrip (rev (lstrip t))).

(** [t.replace(old, new)] for a non-empty [old]: occurrences are replaced
    from left to right without overlap.  [skip] counts the characters of
    the occurrence just replaced that are still to be passed over. *)
Fixpoint replace_from (old new : text) (skip : nat) (t : text) : text :=
  match t with
  | [] => []
  | c :: t' =>
    match skip with
    | S n => replace_from old new n t'
    | O =>
      if startswith old t
      then new ++ replace_from old new (length old - 1) t'
      else c :: replace_from old new 0 t'
    end
  end.

Definition replace (old new t : text) : text := replace_from old new 0 t.

(** [t.split(sep)] for a non-empty [sep]; [piece] holds the current piece
    in reverse. *)
Fixpoint split_from (sep : text) (skip : nat) (piece : text) (t : text)
    : list text :=
  match t with
  | [] => [rev piece]
  | c :: t' =>
    match skip with
    | S n => split_from sep n piece t'
    | O =>
      if startswith sep t
      then rev piece :: split_from sep (length sep - 1) [] t'
      else split_from sep 0 (c :: piece) t'
    end
  end.

Definition split (sep t : text) : list text := split_from sep 0 [] t.

Definition digit_value (c : ascii) : Z := Z.of_N (code c - 48).

(** [int(t)] on a text of decimal digits.  Python also accepts a sign,
    surrounding blanks and underscores between digits; the model raises
    [ValueError] on those, as it does on everything Python rejects. *)
Definition int (t : text) : result Z :=
  match t with
  | [] => Raise ValueError
  | _ :: _ =>
    if forallb isdigit t
    then Ok (fold_left (fun acc c => 10 * acc + digit_value c) t 0)
    else Raise ValueError
  end.

(** ** The fragment of [re] the parser uses

    Patterns are abstract syntax; matching is Python's: leftmost, with
    greedy repetition, ordered alternation and backtracking. *)

Inductive cclass := Digit | Space | Word.

Definition in_class (cl : cclass) (c : ascii) : bool :=
  match cl with
  | Digit => isdigit c
  | Space => isspace c
  | Word => isword c
  end.

Inductive regex :=
| Eps                                             (* empty pattern *)
| Str (w : text)                                  (* literal text *)
| Rep (cl : cclass) (lo : nat) (hi : option nat)  (* \d{lo,hi}, \s*, \w+ *)
| Seq (r1 r2 : regex)
| Alt (r1 r2 : regex)                             (* r1|r2 *)
| Group (n : nat) (r : regex)                     (* n-th capturing group *)
| WordB.                                          (* \b *)

(** [(?:r)?] *)
Definition Opt (r : regex) : regex := Alt r Eps.

(** ["|".join(ws)] as a pattern *)
Fixpoint alternation (ws : list text) : regex :=
  match ws with
  | [] => Eps
  | [w] => Str w
  | w :: ws' => Alt (Str w) (alternation ws')
  end.

Definition captures := list (nat * text).

(** [m.group(n)] *)
Fixpoint group (n : nat) (caps : captures) : text :=
  match caps with
  | [] => []
  | (i, w) :: caps' => if Nat.eqb i n then w else group n caps'
  end.

(** One character of a literal against one of the subject; under
    [re.IGNORECASE] both are lower-cased first. *)
Definition literal_eqb (ic : bool) (p c : ascii) : bool :=
  if ic then char_eqb (lower_char p) (lower_char c) else char_eqb p c.

(** A position in the subject is the character before it, if any, and the
    text from it on.  [literal] matches [w] at the front of [t] and gives
    the position after it. *)
Fixpoint literal (ic : bool) (w : text) (prev : option ascii) (t : text)
    : option (option ascii * text) :=
  match w with
  | [] => Some (prev, t)
  | p :: w' =>
    match t with
    | [] => None
    | c :: t' => if literal_eqb ic p c then literal ic w' (Some c) t' else None
    end
  end.

(** Length of the longest run of [cl] at the front of [t], at most [hi]. *)
Fixpoint run (cl : cclass) (hi : option nat) (t : text) : nat :=
  match t with
  | [] => O
  | c :: t' =>
    match hi with
    | Some O => O
    | _ => if in_class cl c then S (run cl (pred <$> hi) t') else O
    end
  end.

(** The position [n] characters further on. *)
Fixpoint advance (n : nat) (prev : option ascii) (t : text)
    : option ascii * text :=
  match n, t with
  | S n', c :: t' => advance n' (Some c) t'
  | _, _ => (prev, t)
  end.

Definition word_boundary (prev : option ascii) (t : text) : bool :=
  xorb (from_option isword false prev) (from_option isword false (head t)).

Definition cont := option ascii -> text -> captures -> option (text * captures).

(** Greedy repetition: continue after [lo + extra] characters, and on
    failure give them back one at a time down to [lo]. *)
Fixpoint give_back (k : cont) (prev : option ascii) (t : text)
    (caps : captures) (lo extra : nat) : option (text * captures) :=
  let try n := let '(prev', t') := advance n prev t in k prev' t' caps in
  match extra with
  | O => try lo
  | S extra' =>
    match try (lo + extra)%nat with
    | Some m => Some m
    | None => give_back k prev t caps lo extra'
    end
  end.

(** [rmatch ic r prev t caps k]: match [r] at the position [(prev, t)] and
    then the rest of the pattern [k]; [ic] is [re.IGNORECASE]. *)
Fixpoint rmatch (ic : bool) (r : regex) (prev : option ascii) (t : text)
    (caps : captures) (k : cont) : option (text * captures) :=
  match r with
  | Eps => k prev t caps
  | Str w =>
    match literal ic w prev t with
    | Some (prev', t') => k prev' t' caps
    | None => None
    end
  | Rep cl lo hi =>
    let n := run cl hi t in
    if (n <? lo)%nat then None else give_back k prev t caps lo (n - lo)
  | Seq r1 r2 =>
    rmatch ic r1 prev t caps (fun prev' t' caps' => rmatch ic r2 prev' t' caps' k)
  | Alt r1 r2 =>
    match rmatch ic r1 prev t caps k with
    | Some m => Some m
    | None => rmatch ic r2 prev t caps k
    end
  | Group n r' =>
    rmatch ic r' prev t caps (fun prev' t' caps' =>
      k prev' t' ((n, take (length t - length t') t) :: caps'))
  | WordB => if word_boundary prev t then k prev t caps else None
  end.

(** A match of the whole pattern at one position: its length and groups. *)
Definition match_at (ic : bool) (r : regex) (prev : option ascii) (t : text)
    : option (nat * captures) :=
  match rmatch ic r prev t [] (fun _ t' caps => Some (t', caps)) with
  | Some (t', caps) => Some ((length t - length t')%nat, caps)
  | None => None
  end.

(** [pattern.search(t)]: the groups of the leftmost match. *)
Fixpoint search_from (ic : bool) (r : regex) (prev : option ascii) (t : text)
    : option captures :=
  match match_at ic r prev t with
  | Some (_, caps) => Some caps
  | None =>
    match t with
    | [] => None
    | c :: t' => search_from ic r (Some c) t'
    end
  end.

Definition search (ic : bool) (r : regex) (t : text) : option captures :=
  search_from ic r None t.

(** [pattern.findall(t)] for a pattern with one group: group 1 of every
    match, left to right without overlap.  The patterns of this program
    never match the empty text. *)
Fixpoint findall_from (ic : bool) (r : regex) (skip : nat)
    (prev : option ascii) (t : text) : list text :=
  match skip with
  | S n =>
    match t with
    | [] => []
    | c :: t' => findall_from ic r n (Some c) t'
    end
  | O =>
    match match_at ic r prev t with
    | Some (len, caps) =>
      group 1 caps ::
      match t with
      | [] => []
      | c :: t' => findall_from ic r (len - 1) (Some c) t'
      end
    | None =>
      match t with
      | [] => []
      | c :: t' => findall_from ic r 0 (Some c) t'
      end
    end
  end.

Definition findall (ic : bool) (r : regex) (t : text) : list text :=
  findall_from ic r 0 None t.

(** [re.sub(pattern, repl, t)] for a [repl] without group references. *)
Fixpoint sub_from (ic : bool) (r : regex) (repl : text) (skip : nat)
    (prev : option ascii) (t : text) : text :=
  match skip with
  | S n =>
    match t with
    | [] => []
    | c :: t' => sub_from ic r repl n (Some c) t'
    end
  | O =>
    match match_at ic r prev t with
    | Some (len, _) =>
      repl ++
      match t with
      | [] => []
      | c :: t' => sub_from ic r repl (len - 1) (Some c) t'
      end
    | None =>
      match t with
      | [] => []
      | c :: t' => c :: sub_from ic r repl 0 (Some c) t'
      end
    end
  end.

Definition sub (ic : bool) (r : regex) (repl t : text) : text :=
  sub_from ic r repl 0 None t.

(** ** parser.py *)

Module Parser.

Definition DAYS_OF_WEEK : list (text * Z) :=
  [ (str "MONDAY", 0);
    (str "TUESDAY", 1);
    (str "WEDNESDAY", 2);
    (str "THURSDAY", 3);
    (str "FRIDAY", 4);
    (str "SATURDAY", 5);
    (str "SUNDAY", 6) ].

(** [DAYS_OF_WEEK[key]] *)
Fixpoint getitem (d : list (text * Z)) (key : text) : result Z :=
  match d with
  | [] => Raise KeyError
  | (k, v) :: d' => if decide (k = key) then Ok v else getitem d' key
  end.

(** [\d{1,2}(?::\d{2})?(?:AM|PM)] *)
Definition TIME_TOKEN : regex :=
  Seq (Rep Digit 1 (Some 2%nat))
      (Seq (Opt (Seq (Str (str ":")) (Rep Digit 2 (Some 2%nat))))
           (Alt (Str (str "AM")) (Str (str "PM")))).

(** [(TOKEN)\s*-\s*(TOKEN)], compiled with [re.IGNORECASE]. *)
Definition TIME_RE : regex :=
  Seq (Group 1 TIME_TOKEN)
      (Seq (Rep Space 0 None)
           (Seq (Str (str "-"))
                (Seq (Rep Space 0 None) (Group 2 TIME_TOKEN)))).

(** [\b(MONDAY|...|SUNDAY)\b], compiled with [re.IGNORECASE]. *)
Definition DAY_RE : regex :=
  Seq WordB (Seq (Group 1 (alternation (map fst DAYS_OF_WEEK))) WordB).

(** [EXCEPT\s+\w+], used without flags. *)
Definition EXCEPT_RE : regex :=
  Seq (Str (str "EXCEPT")) (Seq (Rep Space 1 None) (Rep Word 1 None)).

Definition _parse_time (t : text) : result (Z * Z) :=
  let t := strip (upper t) in
  let is_pm := endswith (str "PM") t in
  let t := replace (str "PM") [] (replace (str "AM") [] t) in
  '(h, m) ←
    (if contains (str ":") t
     then match split (str ":") t with
          | [h; m] => Ok (h, m)
          | _ => Raise ValueError
          end
     else Ok (t, str "0"));
  h ← int h;
  m ← int m;
  let h := if is_pm && negb (h =? 12) then h + 12 else h in
  let h := if negb is_pm && (h =? 12) then 0 else h in
  Ok (h, m).

(** The set built by the loop over [DAYS_OF_WEEK.items()]. *)
Definition except_days_of (upper_desc : text) : gset Z :=
  foldl (fun (except_days : gset Z) '(day_name, day_num) =>
           if contains (str "EXCEPT " ++ day_name) upper_desc
           then except_days ∪ {[ day_num ]}
           else except_days)
        ∅ DAYS_OF_WEEK.

(** [cleaned]: the upper-cased text without its [EXCEPT ...] clauses. *)
Definition cleaned_of (upper_desc : text) : text :=
  sub false EXCEPT_RE [] upper_desc.

Definition day_matches_of (upper_desc : text) : list text :=
  findall true DAY_RE (cleaned_of upper_desc).

(** [sorted(s)] of a set of ints *)
Definition sorted (s : gset Z) : list Z := merge_sort Z.le (elements s).

Definition parse_sign_description (desc : text)
    : result (option CleaningSchedule) :=
  if negb (contains (str "SANITATION BROOM SYMBOL") (upper desc)) then Ok None
  else
    let upper_desc := upper desc in
    let except_days := except_days_of upper_desc in
    let day_matches := day_matches_of upper_desc in
    if decide (day_matches = [] /\ except_days = ∅) then Ok None
    else
      days ←
        (if decide (day_matches ≠ [])
         then
           nums ← mapM (fun d => getitem DAYS_OF_WEEK (upper d)) day_matches;
           Ok (sorted (list_to_set nums ∖ except_days))
         else Ok (sorted (list_to_set (seqZ 0 7) ∖ except_days)));
      match search true TIME_RE desc with
      | None => Ok None
      | Some time_match =>
        '(start_h, start_m) ← _parse_time (group 1 time_match);
        '(end_h, end_m) ← _parse_time (group 2 time_match);
        Ok (Some (mkSchedule days start_h start_m end_h end_m))
      end.

End Parser.

(** ** Vocabulary of the statements *)

(** What a pattern can match, apart from the order in which the matcher
    tries things and from the context test of [\b]: [matches ic r w caps
    caps'] says that [r] matches the text [w] and takes the groups recorded
    so far from [caps] to [caps']. *)
Fixpoint matches (ic : bool) (r : regex) (w : text) (caps caps' : captures)
    : Prop :=
  match r with
  | Eps | WordB => w = [] /\ caps' = caps
  | Str u => Forall2 (fun p c => literal_eqb ic p c = true) u w /\ caps' = caps
  | Rep cl lo hi =>
    (Forall (fun c => in_class cl c = true) w /\
     (lo <= length w)%nat /\
     from_option (fun h => (length w <= h)%nat) True hi) /\ caps' = caps
  | Seq r1 r2 =>
    exists w1 w2 caps1,
      w = w1 ++ w2 /\ matches ic r1 w1 caps caps1 /\ matches ic r2 w2 caps1 caps'
  | Alt r1 r2 => matches ic r1 w caps caps' \/ matches ic r2 w caps caps'
  | Group n r' => exists caps1, matches ic r' w caps caps1 /\ caps' = (n, w) :: caps1
  end.

Definition all_ascii : list ascii := ascii_of_nat <$> seq 0 256.

(** The decimal digit of value [n]. *)
Definition digit_char (n : Z) : ascii := ascii_of_N (48 + Z.to_N n).

(** The hour part of a time token, one or two digits, and the number it
    spells. *)
Inductive hour_digits : text -> Z -> Prop :=
| hour_one a : 0 <= a < 10 -> hour_digits [digit_char a] a
| hour_two a b :
    0 <= a < 10 -> 0 <= b < 10 ->
    hour_digits [digit_char a; digit_char b] (10 * a + b).

(** The optional minute part, [:MM], and the number it spells; 0 when
    absent. *)
Inductive minute_part : text -> Z -> Prop :=
| minute_absent : minute_part [] 0
| minute_two a b :
    0 <= a < 10 -> 0 <= b < 10 ->
    minute_part (":"%char :: [digit_char a; digit_char b]) (10 * a + b).

(** The suffix AM or PM in any letter case, and whether it is PM. *)
Inductive meridiem : text -> bool -> Prop :=
| meridiem_am sfx : sfx ∈ str <$> ["AM"; "Am"; "aM"; "am"]%string -> meridiem sfx false
| meridiem_pm sfx : sfx ∈ str <$> ["PM"; "Pm"; "pM"; "pm"]%string -> meridiem sfx true.

(** [time_token t H M pm]: [t] has the form H[:MM](AM|PM). *)
Inductive time_token : text -> Z -> Z -> bool -> Prop :=
| time_token_intro hd md sfx H M pm :
    hour_digits hd H -> minute_part md M -> meridiem sfx pm ->
    time_token (hd ++ md ++ sfx) H M pm.

(** The 12-hour rule in the words of the specification: 12 AM is hour 0,
    12 PM stays 12, any other PM hour has 12 added, other AM hours are
    unchanged. *)
Definition twelve_hour_rule (H : Z) (pm : bool) : Z :=
  if pm then (if H =? 12 then 12 else H + 12)
  else (if H =? 12 then 0 else H).

(** Finite listings of the three parts of a token. *)
Definition hour_texts : list (text * Z) :=
  ((fun a => ([digit_char a], a)) <$> seqZ 0 10) ++
  (a ← seqZ 0 10; (fun b => ([digit_char a; digit_char b], 10 * a + b)) <$> seqZ 0 10).

Definition minute_texts : list (text * Z) :=
  ([], 0) ::
  (a ← seqZ 0 10;
   (fun b => (":"%char :: [digit_char a; digit_char b], 10 * a + b)) <$> seqZ 0 10).

Definition meridiem_texts : list (text * bool) :=
  ((fun x => (str x, false)) <$> ["AM"; "Am"; "aM"; "am"]%string) ++
  ((fun x => (str x, true)) <$> ["PM"; "Pm"; "pM"; "pm"]%string).

Definition token_texts : list (text * (Z * Z * bool)) :=
  '(hd, H) ← hour_texts;
  '(md, M) ← minute_texts;
  (fun '(sfx, pm) => (hd ++ md ++ sfx, (H, M, pm))) <$> meridiem_texts.

(** [t.isascii()] *)
Definition isascii (t : text) : bool := forallb (fun c => (code c <? 128)%N) t.

(** Why a description is turned down, in the order the parser decides:
    the line of [parse_sign_description] that returns [None]. *)
Inductive rejection :=
| NotARecognizedSign    (* no marker *)
| NoDayInformation      (* neither a day name nor an exception *)
| NoTimeWindow.         (* no time range *)

Definition rejection_of (desc : text) : option rejection :=
  if negb (contains (str "SANITATION BROOM SYMBOL") (upper desc))
  then Some NotARecognizedSign
  else if decide (Parser.day_matches_of (upper desc) = [] /\
                  Parser.except_days_of (upper desc) = ∅)
  then Some NoDayInformation
  else if decide (search true Parser.TIME_RE desc = None)
  then Some NoTimeWindow
  else None.

(** ** More vocabulary *)

(** [starts_at schedule now m]: [m] minutes after [now] a window of the
    schedule starts, that is, the day reached is one of its days and the
    minute of day reached is its start. *)
Definition starts_at (schedule : CleaningSchedule) (now : datetime) (m : Z)
    : Prop :=
  (weekday now + (current_minutes now + m) / (24 * 60)) mod 7 ∈ days schedule /\
  (current_minutes now + m) mod (24 * 60) = start_minutes schedule.

(** Cleaning is in progress at [now]. *)
Definition active_at (schedule : CleaningSchedule) (now : datetime) : Prop :=
  weekday now ∈ days schedule /\
  start_minutes schedule <= current_minutes now < end_minutes schedule.

(** Patterns without [\b]: what they match does not depend on the
    character before the match. *)
Fixpoint boundary_free (r : regex) : bool :=
  match r with
  | Eps | Str _ | Rep _ _ _ => true
  | Seq r1 r2 | Alt r1 r2 => boundary_free r1 && boundary_free r2
  | Group _ r' => boundary_free r'
  | WordB => false
  end.

(** The length of the time token at the front of [t], read off its first
    characters: one or two digits, [:MM] if a colon follows, and two
    letters. *)
Definition token_length (t : text) : nat :=
  let hour := if from_option isdigit false (t !! 1%nat) then 2%nat else 1%nat in
  let minute :=
    if decide (t !! hour = Some ":"%char) then 3%nat else 0%nat in
  (hour + minute + 2)%nat.
(** ** Vocabulary of day resolution *)









(** ** main.py *)

Module Main.

Definition PAGE_SIZE : Z := 50000.
Definition CACHE_TTL : Z := 3600.

(** What can end a request early: a response that [raise_for_status]
    turns down, an exception leaving the parser or the distance formula,
    an index out of range. *)
Inductive failure :=
| HTTPStatusError
| Uncaught (e : exn)
| IndexError.

Inductive attempt (A : Type) :=
| Done (a : A)
| Failed (f : failure).
Arguments Done {A} a.
Arguments Failed {A} f.

#[global] Instance attempt_ret : MRet attempt := fun A a => Done a.
#[global] Instance attempt_bind : MBind attempt := fun A B f m =>
  match m with
  | Done a => f a
  | Failed e => Failed e
  end.

(** A Python float that is only stored and compared is the rational it
    denotes: coordinates, distances and times are taken to be finite
    numbers.  Floating-point arithmetic is left to the world below.
    [Qlt_bool a b] is [a < b] on floats. *)
Definition Qlt_bool (a b : Q) : bool := negb (Qle_bool b a).

(** One object of the JSON array a response carries; the endpoint sends
    every value as a string. *)
Abbreviation row := (gmap string text).

(** [row.get(key, "")] *)
Definition get_or_empty (r : row) (key : string) : text := default [] (r !! key).

(** [not v] for [v = row.get(key)]: the key is missing or its text is
    empty. *)
Definition falsy (v : option text) : bool :=
  match v with
  | None | Some [] => true
  | Some (_ :: _) => false
  end.

(** The dict [_fetch_signs] builds for a row. *)
Module Sign.
Record t := mk {
  on_street : text;
  from_street : text;
  to_street : text;
  side : text;
  borough : text;
  description : text;
  lat : Q;
  lng : Q;
  schedule : CleaningSchedule
}.
End Sign.

Record CachedData := mkCache {
  signs : list Sign.t;
  fetched_at : Q
}.

Definition _cache : CachedData := mkCache [] 0.

(** The dict [get_streets] keeps per street segment while it groups. *)
Module Segment.
Record t := mk {
  on_street : text;
  from_street : text;
  to_street : text;
  side : text;
  borough : text;
  description : text;
  hours_until_cleaning : Q;
  coords : list (Q * Q)
}.
End Segment.

(** The dict [get_streets] returns per street segment: ["coords"] popped,
    ["start"] and ["end"] added. *)
Module Street.
Record t := mk {
  on_street : text;
  from_street : text;
  to_street : text;
  side : text;
  borough : text;
  description : text;
  hours_until_cleaning : Q;
  start : Q * Q;
  end_ : Q * Q
}.
End Street.

Definition segment_key := (text * text * text * text)%type.

(** [l.sort(key=...)]: Python's sort is stable, so its result is that of
    any stable sort; [precedes y x] says that [y] has to come before [x]. *)
Fixpoint insert_sorted {A} (precedes : A -> A -> bool) (x : A) (l : list A)
    : list A :=
  match l with
  | [] => [x]
  | y :: l' =>
    if precedes y x then y :: insert_sorted precedes x l' else x :: y :: l'
  end.

Definition stable_sort {A} (precedes : A -> A -> bool) (l : list A) : list A :=
  foldr (insert_sorted precedes) [] l.

(** [(c[0], c[1]) < (d[0], d[1])] on tuples of floats. *)
Definition coord_lt (c d : Q * Q) : bool :=
  if Qeq_bool c.1 d.1 then Qlt_bool c.2 d.2 else Qlt_bool c.1 d.1.

Section World.

(** The world the two endpoints act on. *)

(** The response to the request with [$limit=PAGE_SIZE] and the given
    [$offset]: the decoded JSON array, or the failure that
    [raise_for_status] raises. *)
Variable get_page : Z -> attempt (list row).

(** [transformer.transform(float(x), float(y))], giving [(lng, lat)];
    [None] when the conversion or the projection raises. *)
Variable transform : text -> text -> option (Q * Q).

(** [_haversine_km] is floating-point trigonometry; only its result is
    compared.  It raises where [math.sqrt] or [math.sin] is handed a value
    outside its domain: rounding can take [a] above 1 for two points that
    lie opposite on the globe. *)
Variable _haversine_km : Q -> Q -> Q -> Q -> result Q.

(** [round(hrs, 1)] *)
Variable round1 : Q -> Q.

(** [now - fetched_at], the float difference of two readings of
    [time.time()]. *)
Variable elapsed : Q -> Q -> Q.

(** [datetime.now(NYC_TZ)] at the n-th call of the calculator within one
    request. *)
Variable clock : nat -> datetime.

(** The [while True] loop of [_fetch_signs]; [None] when [fuel] requests
    were not enough to leave it. *)
Fixpoint fetch_pages (fuel : nat) (offset : Z) (raw : list row)
    : option (attempt (list row)) :=
  match fuel with
  | O => None
  | S fuel' =>
    match get_page offset with
    | Failed e => Some (Failed e)
    | Done page =>
      if decide (page = []) then Some (Done raw)
      else
        let raw := raw ++ page in
        if decide (Z.of_nat (length page) < PAGE_SIZE) then Some (Done raw)
        else fetch_pages fuel' (offset + PAGE_SIZE) raw
    end
  end.

(** One turn of [for row in raw]: the sign appended, or [None] where the
    loop says [continue]. *)
Definition sign_of_row (r : row) : attempt (option Sign.t) :=
  let x := r !! "sign_x_coord"%string in
  let y := r !! "sign_y_coord"%string in
  if falsy x || falsy y then Done None
  else
    match transform (default [] x) (default [] y) with
    | None => Done None
    | Some (lng, lat) =>
      match Parser.parse_sign_description (get_or_empty r "sign_description") with
      | Raise e => Failed (Uncaught e)
      | Ok None => Done None
      | Ok (Some schedule) =>
        Done (Some (Sign.mk (get_or_empty r "on_street")
                            (get_or_empty r "from_street")
                            (get_or_empty r "to_street")
                            (get_or_empty r "side_of_street")
                            (get_or_empty r "borough")
                            (get_or_empty r "sign_description")
                            lat lng schedule))
      end
    end.

Fixpoint signs_of_rows (raw : list row) (signs : list Sign.t)
    : attempt (list Sign.t) :=
  match raw with
  | [] => Done signs
  | r :: raw' =>
    kept ← sign_of_row r;
    match kept with
    | None => signs_of_rows raw' signs
    | Some sign => signs_of_rows raw' (signs ++ [sign])
    end
  end.

(** [_fetch_signs], with the cache passed in and out and the two readings
    of [time.time()] as [now] and [now']. *)
Definition _fetch_signs (fuel : nat) (cache : CachedData) (now now' : Q)
    : option (attempt (list Sign.t * CachedData)) :=
  if negb (bool_decide (signs cache = [])) &&
     Qlt_bool (elapsed now (fetched_at cache)) (inject_Z CACHE_TTL)
  then Some (Done (signs cache, cache))
  else
    match fetch_pages fuel 0 [] with
    | None => None
    | Some (Failed e) => Some (Failed e)
    | Some (Done raw) =>
      Some (signs ← signs_of_rows raw [];
            Done (signs, mkCache signs now'))
    end.

Definition street_key (r : Street.t) : segment_key :=
  (Street.on_street r, Street.from_street r, Street.to_street r, Street.side r).

Definition key_of (s : Sign.t) : segment_key :=
  (Sign.on_street s, Sign.from_street s, Sign.to_street s, Sign.side s).

(** [seg["coords"].append(c)] *)
Definition with_coord (c : Q * Q) (seg : Segment.t) : Segment.t :=
  Segment.mk (Segment.on_street seg) (Segment.from_street seg)
             (Segment.to_street seg) (Segment.side seg)
             (Segment.borough seg) (Segment.description seg)
             (Segment.hours_until_cleaning seg)
             (Segment.coords seg ++ [c]).

(** [segments[key]["coords"].append(c)] *)
Fixpoint append_coord (key : segment_key) (c : Q * Q)
    (segments : list (segment_key * Segment.t))
    : list (segment_key * Segment.t) :=
  match segments with
  | [] => []
  | (k, seg) :: segments' =>
    if decide (k = key)
    then (k, with_coord c seg) :: segments'
    else (k, seg) :: append_coord key c segments'
  end.

(** The distance to the sign is computed, and the sign passes the test
    [dist > radius_km]. *)
Definition within (lat lng radius_km : Q) (s : Sign.t) : bool :=
  match _haversine_km lat lng (Sign.lat s) (Sign.lng s) with
  | Ok dist => negb (Qlt_bool radius_km dist)
  | Raise _ => false
  end.

(** The signs of one street segment that pass the test, in the order of
    the list. *)
Definition group_of (lat lng radius_km : Q) (key : segment_key)
    (signs : list Sign.t) : list Sign.t :=
  List.filter (fun s => within lat lng radius_km s && bool_decide (key_of s = key))
              signs.

(** What [get_streets] shows for hours: [inf] becomes 999.0, and the
    number is rounded to one decimal. *)
Definition shown_hours (hrs : pyfloat) : Q :=
  round1 match hrs with Inf => 999%Q | Fin q => q end.

(** What the dict [segments] holds once the loop has seen [signs]: one
    item per street segment with a sign that passes the test, carrying the
    coordinates of all such signs, and the borough, description and shown
    hours of the first of them. *)
Definition segments_of (lat lng radius_km : Q) (signs : list Sign.t)
    (segments : list (segment_key * Segment.t)) : Prop :=
  NoDup segments.*1 /\
  (forall k, k ∈ segments.*1 <-> group_of lat lng radius_km k signs <> []) /\
  forall i k seg, segments !! i = Some (k, seg) ->
    (Segment.on_street seg, Segment.from_street seg,
     Segment.to_street seg, Segment.side seg) = k /\
    Segment.coords seg =
      (fun s => (Sign.lat s, Sign.lng s)) <$> group_of lat lng radius_km k signs /\
    exists s rest, group_of lat lng radius_km k signs = s :: rest /\
      Segment.borough seg = Sign.borough s /\
      Segment.description seg = Sign.description s /\
      Segment.hours_until_cleaning seg =
      shown_hours
        (Scheduler.hours_until_next_cleaning (Sign.schedule s) (clock i)).

(** One turn of [for s in signs]; the dict [segments] is the list of its
    items in insertion order. *)
Definition add_sign (lat lng radius_km : Q)
    (segments : list (segment_key * Segment.t)) (s : Sign.t)
    : attempt (list (segment_key * Segment.t)) :=
  match _haversine_km lat lng (Sign.lat s) (Sign.lng s) with
  | Raise e => Failed (Uncaught e)
  | Ok dist =>
    if Qlt_bool radius_km dist then Done segments
    else
      let key := key_of s in
      let segments :=
        if decide (key ∉ segments.*1) then
          let hrs :=
            Scheduler.hours_until_next_cleaning (Sign.schedule s)
              (clock (length segments)) in
          let hrs := match hrs with Inf => 999%Q | Fin q => q end in
          segments ++
            [(key, Segment.mk (Sign.on_street s) (Sign.from_street s)
                              (Sign.to_street s) (Sign.side s)
                              (Sign.borough s) (Sign.description s)
                              (round1 hrs) [])]
        else segments in
      Done (append_coord key (Sign.lat s, Sign.lng s) segments)
  end.

(** [for s in signs], from the dict [segments] on. *)
Fixpoint add_signs (lat lng radius_km : Q)
    (segments : list (segment_key * Segment.t)) (signs : list Sign.t)
    : attempt (list (segment_key * Segment.t)) :=
  match signs with
  | [] => Done segments
  | s :: signs' =>
    segments ← add_sign lat lng radius_km segments s;
    add_signs lat lng radius_km segments signs'
  end.

(** [coords[i]] for [i] 0 or -1 *)
Definition first_of (coords : list (Q * Q)) : attempt (Q * Q) :=
  match head coords with
  | Some c => Done c
  | None => Failed IndexError
  end.

Definition last_of (coords : list (Q * Q)) : attempt (Q * Q) :=
  match last coords with
  | Some c => Done c
  | None => Failed IndexError
  end.

(** One turn of [for seg in segments.values()]. *)
Definition street_of (seg : Segment.t) : attempt Street.t :=
  let coords := Segment.coords seg in
  '(first, final) ←
    (if decide (2 <= length coords)%nat
     then
       let coords := stable_sort coord_lt coords in
       first ← first_of coords; final ← last_of coords; Done (first, final)
     else
       first ← first_of coords; final ← first_of coords; Done (first, final));
  Done (Street.mk (Segment.on_street seg) (Segment.from_street seg)
                  (Segment.to_street seg) (Segment.side seg)
                  (Segment.borough seg) (Segment.description seg)
                  (Segment.hours_until_cleaning seg) first final).

(** The body of [get_streets] once the signs are there. *)
Definition streets_of_signs (signs : list Sign.t) (lat lng radius_km : Q)
    : attempt (list Street.t) :=
  segments ← add_signs lat lng radius_km [] signs;
  results ← mapM street_of segments.*2;
  let results :=
    stable_sort (fun r' r => Qlt_bool (Street.hours_until_cleaning r)
                                      (Street.hours_until_cleaning r'))
                results in
  Done (take 500 results).

Definition get_streets (fuel : nat) (cache : CachedData) (now now' : Q)
    (lat lng radius_km : Q)
    : option (attempt (list Street.t * CachedData)) :=
  match _fetch_signs fuel cache now now' with
  | None => None
  | Some (Failed e) => Some (Failed e)
  | Some (Done (signs, cache')) =>
    Some (results ← streets_of_signs signs lat lng radius_km;
          Done (results, cache'))
  end.

End World.

(** Sample data for the examples: four signs on two street segments, a
    stand-in for the distance that grows with the latitude and raises on a
    negative one, rounding left out, and a clock that stands at Monday
    07:00. *)
Definition sample_sign (side : string) (lat lng : Q) (description : string)
    (schedule : CleaningSchedule) : Sign.t :=
  Sign.mk (str "BROADWAY") (str "W 4 ST") (str "W 3 ST") (str side)
          (str "Manhattan") (str description) lat lng schedule.

Definition sample_signs : list Sign.t :=
  [ sample_sign "E" 3 7 "SANITATION BROOM SYMBOL TUESDAY 9AM-10AM"
      (mkSchedule [1] 9 0 10 0);
    sample_sign "W" 2 5 "SANITATION BROOM SYMBOL MONDAY 8AM-9AM"
      (mkSchedule [0] 8 0 9 0);
    sample_sign "E" 1 9 "SANITATION BROOM SYMBOL FRIDAY 9AM-10AM"
      (mkSchedule [4] 9 0 10 0);
    sample_sign "E" 8 8 "SANITATION BROOM SYMBOL SUNDAY 9AM-10AM"
      (mkSchedule [6] 9 0 10 0) ].

Definition sample_distance (lat lng sign_lat sign_lng : Q) : result Q :=
  if Qlt_bool sign_lat 0 then Raise ValueError else Ok sign_lat.

Definition sample_clock (n : nat) : datetime := mkDatetime 0 7 0.

Definition sample_streets : list Street.t :=
  Eval vm_compute in
    match streets_of_signs sample_distance (fun q => q) sample_clock
                           sample_signs 0 0 5 with
    | Done results => results
    | Failed _ => []
    end.

(** A server with two rows, the second without the marker, and a
    stand-in for the projection that reads the two numbers as they are
    written; the first call of [_fetch_signs] on the empty cache, with the
    clock at 10 and then 11 seconds. *)
Definition sample_rows : list row :=
  [ list_to_map [ ("on_street", str "BROADWAY"); ("side_of_street", str "E");
                  ("sign_x_coord", str "987654"); ("sign_y_coord", str "204060");
                  ("sign_description",
                   str "SANITATION BROOM SYMBOL TUESDAY 9AM-10AM") ]%string;
    list_to_map [ ("on_street", str "BROADWAY"); ("side_of_street", str "W");
                  ("sign_x_coord", str "987650"); ("sign_y_coord", str "204066");
                  ("sign_description", str "NO STANDING ANYTIME") ]%string ].

Definition sample_server (offset : Z) : attempt (list row) :=
  Done (take (Z.to_nat PAGE_SIZE) (drop (Z.to_nat offset) sample_rows)).

Definition sample_transform (x y : text) : option (Q * Q) :=
  match int x, int y with
  | Ok x, Ok y => Some (inject_Z x, inject_Z y)
  | _, _ => None
  end.

Definition sample_fetched : list Sign.t * CachedData :=
  Eval vm_compute in
    match _fetch_signs sample_server sample_transform Qminus 3 _cache 10 11 with
    | Some (Done fetched) => fetched
    | _ => ([], _cache)
    end.

End Main.

(** * Properties of the calculator *)

Lemma truediv60_eq n : (truediv60 n == n # 60)%Q.
Proof. apply Qred_correct. Qed.

Lemma truediv60_bounds n lo hi :
  lo * 60 <= n < hi * 60 ->
  (inject_Z lo <= truediv60 n)%Q /\ (truediv60 n < inject_Z hi)%Q.
Proof.
  intros [Hlo Hhi]. rewrite truediv60_eq.
  unfold Qle, Qlt, inject_Z; simpl. lia.
Qed.

Section SchedulerFacts.
Import Scheduler.

Context (schedule : CleaningSchedule) (now : datetime).

Local Abbreviation wd := (weekday now).
Local Abbreviation cur := (current_minutes now).
Local Abbreviation st := (start_minutes schedule).
Local Abbreviation en := (end_minutes schedule).

Lemma hours_unfold :
  hours_until_next_cleaning schedule now =
  scan schedule wd cur st en (0 :: seqZ 1 7).
Proof. reflexivity. Qed.

Lemma scan_miss k rest :
  (wd + k) mod 7 ∉ days schedule ->
  scan schedule wd cur st en (k :: rest) = scan schedule wd cur st en rest.
Proof. intros Hk. simpl. case_decide; [done | contradiction]. Qed.

Lemma scan_future k rest :
  k <> 0 -> (wd + k) mod 7 ∈ days schedule ->
  scan schedule wd cur st en (k :: rest) =
  Fin (truediv60 (k * 24 * 60 + st - cur)).
Proof.
  intros Hk Hin. simpl.
  case_decide; [contradiction |]. case_decide; [contradiction | done].
Qed.

Lemma scan_all_miss offsets :
  (forall k, k ∈ offsets -> (wd + k) mod 7 ∉ days schedule) ->
  scan schedule wd cur st en offsets = Inf.
Proof.
  induction offsets as [| k rest IH]; intros Hmiss; [done |].
  rewrite scan_miss by (apply Hmiss; left).
  apply IH. intros j Hj. apply Hmiss. by right.
Qed.

(** The first later offset whose day is active decides the scan. *)
Lemma scan_first_hit skipped k rest :
  (forall j, j ∈ skipped -> (wd + j) mod 7 ∉ days schedule) ->
  k <> 0 -> (wd + k) mod 7 ∈ days schedule ->
  scan schedule wd cur st en (skipped ++ k :: rest) =
  Fin (truediv60 (k * 24 * 60 + st - cur)).
Proof.
  induction skipped as [| j skipped IH]; intros Hmiss Hk Hin.
  - by apply scan_future.
  - rewrite <- app_comm_cons, scan_miss by (apply Hmiss; left).
    apply IH; [| done | done]. intros i Hi. apply Hmiss. by right.
Qed.

Lemma future_offsets_split k :
  1 <= k <= 7 ->
  seqZ 1 7 = seqZ 1 (k - 1) ++ k :: seqZ (k + 1) (7 - k).
Proof.
  intros Hk.
  assert (k = 1 \/ k = 2 \/ k = 3 \/ k = 4 \/ k = 5 \/ k = 6 \/ k = 7)
    as Hcases by lia.
  repeat destruct Hcases as [-> | Hcases]; try subst k; reflexivity.
Qed.

(** Some day of a non-empty schedule comes up within the next seven days,
    and there is a first such day. *)
Lemma first_active_offset :
  0 <= wd < 7 ->
  (forall d, d ∈ days schedule -> 0 <= d < 7) ->
  days schedule <> [] ->
  exists k, 1 <= k <= 7 /\ (wd + k) mod 7 ∈ days schedule /\
    forall j, 1 <= j < k -> (wd + j) mod 7 ∉ days schedule.
Proof.
  intros Hwd Hrange Hne.
  assert (exists k0, 1 <= k0 <= 7 /\ (wd + k0) mod 7 ∈ days schedule)
    as (k0 & Hk0 & Hin0).
  { destruct (days schedule) as [| d ds] eqn:Hds; [done |].
    assert (0 <= d < 7) as Hd by (apply Hrange; left).
    exists ((d - wd - 1) mod 7 + 1). split.
    - pose proof (Z.mod_pos_bound (d - wd - 1) 7). lia.
    - replace ((wd + ((d - wd - 1) mod 7 + 1)) mod 7) with d; [left |].
      Z.div_mod_to_equations. lia. }
  assert (forall n : nat,
            (forall j, 1 <= j <= Z.of_nat n -> (wd + j) mod 7 ∉ days schedule) \/
            exists k, 1 <= k <= Z.of_nat n /\ (wd + k) mod 7 ∈ days schedule /\
              forall j, 1 <= j < k -> (wd + j) mod 7 ∉ days schedule)
    as Hleast.
  { induction n as [| n [IH | (k & Hk & Hin & Hmin)]].
    - left. lia.
    - destruct (decide ((wd + Z.of_nat (S n)) mod 7 ∈ days schedule)) as [Hin | Hout].
      + right. exists (Z.of_nat (S n)). split; [lia |]. split; [done |].
        intros j Hj. apply IH. lia.
      + left. intros j Hj.
        destruct (decide (j = Z.of_nat (S n))) as [-> | Hneq]; [done |].
        apply IH. lia.
    - right. exists k. split; [lia | done]. }
  destruct (Hleast 7%nat) as [Hnone | (k & Hk & Hink & Hmin)].
  - exfalso. by apply (Hnone k0).
  - exists k. split; [lia | done].
Qed.

Lemma scan_later_offsets k :
  1 <= k <= 7 -> (wd + k) mod 7 ∈ days schedule ->
  (forall j, 1 <= j < k -> (wd + j) mod 7 ∉ days schedule) ->
  scan schedule wd cur st en (seqZ 1 7) =
  Fin (truediv60 (k * 24 * 60 + st - cur)).
Proof.
  intros Hk Hin Hmin. rewrite (future_offsets_split k Hk).
  apply scan_first_hit; [| lia | done].
  intros j Hj. apply Hmin. apply elem_of_seqZ in Hj. lia.
Qed.

(** The three ways the calculator answers for a non-empty schedule. *)
Lemma hours_cases :
  0 <= wd < 7 ->
  (forall d, d ∈ days schedule -> 0 <= d < 7) ->
  days schedule <> [] ->
  (wd ∈ days schedule /\ st <= cur < en /\
   hours_until_next_cleaning schedule now = Fin 0) \/
  (wd ∈ days schedule /\ cur < st /\
   hours_until_next_cleaning schedule now = Fin (truediv60 (st - cur))) \/
  (exists k, 1 <= k <= 7 /\ (wd + k) mod 7 ∈ days schedule /\
     (forall j, 1 <= j < k -> (wd + j) mod 7 ∉ days schedule) /\
     (wd ∈ days schedule -> st <= cur /\ en <= cur) /\
     hours_until_next_cleaning schedule now =
     Fin (truediv60 (k * 24 * 60 + st - cur))).
Proof.
  intros Hwd Hrange Hne.
  destruct (first_active_offset Hwd Hrange Hne) as (k & Hk & Hin & Hmin).
  pose proof (scan_later_offsets k Hk Hin Hmin) as Hlater.
  assert ((wd + 0) mod 7 = wd) as Htoday
    by (rewrite Z.add_0_r; apply Z.mod_small; lia).
  rewrite hours_unfold.
  destruct (decide (wd ∈ days schedule)) as [Hday | Hday].
  - cbn [scan]. rewrite Htoday.
    case_decide; [contradiction |]. case_decide; [| done].
    case_decide; [by left |]. case_decide; [right; by left |].
    right; right. exists k. do 3 (split; [done |]). split; [lia | done].
  - rewrite scan_miss by (by rewrite Htoday).
    right; right. exists k. do 3 (split; [done |]). split; [done | done].
Qed.

End SchedulerFacts.

(** ** Claims about [hours_until_next_cleaning] *)

Import Scheduler.

(** C1 (active now): when the reference weekday is one of the schedule's
    days and the reference minute of day lies in the half-open window
    [start_minutes, end_minutes), the calculator returns exactly [0.0]. *)
Theorem active_now_returns_zero (schedule : CleaningSchedule) (now : datetime) :
  datetime_wf now ->
  weekday now ∈ days schedule ->
  start_minutes schedule <= current_minutes now < end_minutes schedule ->
  hours_until_next_cleaning schedule now = Fin 0.
Proof.
  intros (Hwd & _) Hday Hwin. rewrite hours_unfold. cbn [scan].
  rewrite Z.add_0_r, Z.mod_small by done.
  case_decide; [contradiction |]. case_decide; [| done].
  case_decide; [done | contradiction].
Qed.

Lemma active_now_returns_zero_witness :
  hours_until_next_cleaning (mkSchedule [0] 8 0 11 0) (mkDatetime 0 9 30) = Fin 0.
Proof.
  apply active_now_returns_zero.
  - unfold datetime_wf; simpl; lia.
  - simpl. left.
  - unfold start_minutes, current_minutes, end_minutes; simpl; lia.
Defined.

Lemma truediv60_le n hi : n <= hi * 60 -> (truediv60 n <= inject_Z hi)%Q.
Proof.
  intros Hn. rewrite truediv60_eq. unfold Qle, inject_Z; simpl. lia.
Qed.

Lemma truediv60_is n h : (truediv60 n == inject_Z h)%Q <-> n = h * 60.
Proof.
  rewrite truediv60_eq. unfold Qeq, inject_Z; simpl. lia.
Qed.

(** C2, as the code has it: for a schedule with at least one day, all of
    them weekdays 0..6, whose window starts at a time of day, and a
    reference instant with weekday 0..6 and minute of day 0..1439, the
    calculator returns a finite number of hours [q] with [0 <= q <= 168],
    never [inf].  It returns 168 in one case only: the reference weekday
    is the only day, the reference minute is the start of the window, and
    the window ends no later than it starts.  When the window ends after
    it starts, [q < 168]. *)
Theorem hours_within_one_week (schedule : CleaningSchedule) (now : datetime) :
  (forall d, d ∈ days schedule -> 0 <= d < 7) ->
  days schedule <> [] ->
  0 <= start_minutes schedule < 24 * 60 ->
  datetime_wf now ->
  exists q, hours_until_next_cleaning schedule now = Fin q /\
    (0 <= q)%Q /\ (q <= 168)%Q /\
    ((q == 168)%Q <->
     (forall d, d ∈ days schedule -> d = weekday now) /\
     current_minutes now = start_minutes schedule /\
     end_minutes schedule <= start_minutes schedule) /\
    (start_minutes schedule < end_minutes schedule -> (q < 168)%Q).
Proof.
  intros Hrange Hne Hst (Hwd & Hh & Hm).
  assert (0 <= current_minutes now < 24 * 60) as Hcur
    by (unfold current_minutes; lia).
  assert (exists q, hours_until_next_cleaning schedule now = Fin q /\
            (0 <= q)%Q /\ (q <= 168)%Q /\
            ((q == 168)%Q <->
             (forall d, d ∈ days schedule -> d = weekday now) /\
             current_minutes now = start_minutes schedule /\
             end_minutes schedule <= start_minutes schedule))
    as (q & Hq & Hlo & Hhi & Hfull).
  { destruct (hours_cases schedule now Hwd Hrange Hne)
      as [(_ & Hact & ->) | [(_ & Hlt & ->) | (k & Hk & Hin & Hmin & Hpast & ->)]].
    - exists 0%Q. split; [done |]. split; [done |]. split; [done |].
      split; [intros Heq; discriminate Heq |]. lia.
    - eexists. split; [done |].
      split; [apply (truediv60_bounds _ 0 168); lia |].
      split; [apply (truediv60_le _ 168); lia |].
      change 168%Q with (inject_Z 168). rewrite truediv60_is. lia.
    - assert (k = 7 -> start_minutes schedule <= current_minutes now /\
                       end_minutes schedule <= current_minutes now) as Hseven.
      { intros ->. apply Hpast.
        rewrite Z.add_mod, Z.mod_same, Z.add_0_r, Z.mod_mod, Z.mod_small in Hin
          by lia. done. }
      eexists. split; [done |].
      split; [apply (truediv60_bounds _ 0 169); lia |].
      split; [apply (truediv60_le _ 168); lia |].
      change 168%Q with (inject_Z 168). rewrite truediv60_is. split.
      + intros Heq. assert (k = 7) as -> by lia.
        destruct Hseven as [Hs He]; [done |].
        split; [| lia]. intros d Hd. specialize (Hrange d Hd).
        destruct (decide (d = weekday now)) as [| Hother]; [done |].
        exfalso. apply (Hmin ((d - weekday now) mod 7)).
        * revert Hother. Z.div_mod_to_equations. lia.
        * replace ((weekday now + (d - weekday now) mod 7) mod 7) with d; [done |].
          Z.div_mod_to_equations. lia.
      + intros (Honly & Hsame & Hend). apply Honly in Hin.
        assert (k = 7) as -> by (revert Hin; Z.div_mod_to_equations; lia).
        lia. }
  exists q. do 4 (split; [done |]).
  intros Hwin. apply Qle_lteq in Hhi as [Hlt | Heq]; [done |].
  apply Hfull in Heq. lia.
Qed.

Lemma hours_within_one_week_witness :
  exists q,
    hours_until_next_cleaning (mkSchedule [0] 8 0 8 0) (mkDatetime 0 8 0) = Fin q /\
    (0 <= q)%Q /\ (q <= 168)%Q /\
    ((q == 168)%Q <->
     (forall d, d ∈ [0] -> d = 0) /\ 480 = 480 /\ 480 <= 480) /\
    (480 < 480 -> (q < 168)%Q).
Proof.
  apply (hours_within_one_week (mkSchedule [0] 8 0 8 0) (mkDatetime 0 8 0)).
  - intros d Hd. apply list_elem_of_singleton in Hd. lia.
  - simpl. discriminate.
  - unfold start_minutes; simpl; lia.
  - unfold datetime_wf; simpl; lia.
Defined.

(** C2 fails as stated: the parser returns a schedule whose window ends
    where it starts, and asked at that minute the calculator answers a
    full week, 168 hours; it returns one whose start no clock shows, and
    the calculator answers 255 hours. *)
Lemma hours_bound_counterexample :
  let schedule := mkSchedule [0] 8 0 8 0 in
  let now := mkDatetime 0 8 0 in
  let late := mkSchedule [0] 111 0 9 0 in
  let tuesday := mkDatetime 1 0 0 in
  Parser.parse_sign_description (str "SANITATION BROOM SYMBOL MONDAY 8AM-8AM")
    = Ok (Some schedule) /\
  days schedule <> [] /\ datetime_wf now /\
  ~ (exists q, hours_until_next_cleaning schedule now = Fin q /\
               (0 <= q)%Q /\ (q < 168)%Q) /\
  Parser.parse_sign_description (str "SANITATION BROOM SYMBOL MONDAY 99PM-9AM")
    = Ok (Some late) /\
  days late <> [] /\ datetime_wf tuesday /\
  ~ (exists q, hours_until_next_cleaning late tuesday = Fin q /\
               (0 <= q)%Q /\ (q < 168)%Q).
Proof.
  cbv zeta.
  split; [vm_compute; reflexivity |]. split; [discriminate |].
  split; [unfold datetime_wf; simpl; lia |].
  split; [intros (q & [= <-] & _ & Hlt); discriminate Hlt |].
  split; [vm_compute; reflexivity |]. split; [discriminate |].
  split; [unfold datetime_wf; simpl; lia |].
  intros (q & [= <-] & _ & Hlt); discriminate Hlt.
Qed.

(** C3, as the code has it: when the reference day is the schedule's
    only day and the reference minute is at or past the end of the window,
    the calculator answers at offset 7, one week later, if the reference
    minute is also at or past the start of the window; if it is before the
    start, the calculator answers at offset 0 with the time left until the
    start.  For Monday only, 08:00 to 11:00, asked on Monday at 12:00, the
    result is exactly [164.0]. *)
Theorem elapsed_only_day_wraps_a_week :
  (forall (schedule : CleaningSchedule) (now : datetime),
     datetime_wf now ->
     (forall d, d ∈ days schedule <-> d = weekday now) ->
     end_minutes schedule <= current_minutes now ->
     (start_minutes schedule <= current_minutes now ->
      hours_until_next_cleaning schedule now =
      Fin (truediv60 (7 * 24 * 60 + start_minutes schedule - current_minutes now))) /\
     (current_minutes now < start_minutes schedule ->
      hours_until_next_cleaning schedule now =
      Fin (truediv60 (start_minutes schedule - current_minutes now))))
  /\ hours_until_next_cleaning (mkSchedule [0] 8 0 11 0) (mkDatetime 0 12 0)
     = Fin 164.
Proof.
  split; [| reflexivity].
  intros schedule now (Hwd & _) Honly Hpast.
  assert (forall d, d ∈ days schedule -> 0 <= d < 7) as Hrange.
  { intros d Hd. apply Honly in Hd. lia. }
  assert (days schedule <> []) as Hne.
  { intros Hnil. assert (weekday now ∈ days schedule) as Hd by (by apply Honly).
    rewrite Hnil in Hd. by apply not_elem_of_nil in Hd. }
  destruct (hours_cases schedule now Hwd Hrange Hne)
    as [(_ & Hact & _) | [(_ & Hlt & Heq) | (k & Hk & Hin & _ & Hboth & Heq)]];
    [lia | |].
  - split; [lia | done].
  - apply Honly in Hin.
    assert (k = 7) as -> by (revert Hin; Z.div_mod_to_equations; lia).
    split; [done |]. intros Hlt.
    destruct Hboth as [Hs _]; [by apply Honly | lia].
Qed.

Lemma elapsed_only_day_wraps_a_week_witness :
  hours_until_next_cleaning (mkSchedule [2] 9 0 10 30) (mkDatetime 2 10 30)
  = Fin (truediv60 (7 * 24 * 60 + 540 - 630)).
Proof.
  apply (proj1 elapsed_only_day_wraps_a_week
           (mkSchedule [2] 9 0 10 30) (mkDatetime 2 10 30)).
  - unfold datetime_wf; simpl; lia.
  - intros d; simpl. apply list_elem_of_singleton.
  - unfold end_minutes, current_minutes; simpl; lia.
  - unfold start_minutes, current_minutes; simpl; lia.
Defined.

(** C3 fails as stated: for the parser's schedule of a window written
    backwards, Monday 11:00 to 08:00, asked on Monday at 09:00, past the
    end of the window, the calculator answers at offset 0, two hours, and
    not one week later. *)
Lemma elapsed_wraparound_counterexample :
  let schedule := mkSchedule [0] 11 0 8 0 in
  let now := mkDatetime 0 9 0 in
  Parser.parse_sign_description (str "SANITATION BROOM SYMBOL MONDAY 11AM-8AM")
    = Ok (Some schedule) /\
  datetime_wf now /\
  (forall d, d ∈ days schedule <-> d = weekday now) /\
  end_minutes schedule <= current_minutes now /\
  hours_until_next_cleaning schedule now = Fin 2 /\
  hours_until_next_cleaning schedule now <>
  Fin (truediv60 (7 * 24 * 60 + start_minutes schedule - current_minutes now)).
Proof.
  cbv zeta.
  split; [vm_compute; reflexivity |].
  split; [unfold datetime_wf; simpl; lia |].
  split; [intros d; simpl; apply list_elem_of_singleton |].
  split; [unfold end_minutes, current_minutes; simpl; lia |].
  split; [reflexivity |]. vm_compute. discriminate.
Qed.

(** C6 (never): for a schedule whose days are weekdays 0..6, the calculator
    returns [inf] exactly when the schedule has no day: with no day every
    reference instant gives [inf], and with at least one day the eight
    offsets never run out without an answer. *)
Theorem never_iff_no_days (schedule : CleaningSchedule) (now : datetime) :
  datetime_wf now ->
  (forall d, d ∈ days schedule -> 0 <= d < 7) ->
  hours_until_next_cleaning schedule now = Inf <-> days schedule = [].
Proof.
  intros (Hwd & _) Hrange. split.
  - intros Hinf. destruct (decide (days schedule = [])) as [| Hne]; [done |].
    destruct (hours_cases schedule now Hwd Hrange Hne)
      as [(_ & _ & Heq) | [(_ & _ & Heq) | (k & _ & _ & _ & _ & Heq)]];
      rewrite Heq in Hinf; discriminate.
  - intros Hnil. rewrite hours_unfold. apply scan_all_miss.
    intros k _. rewrite Hnil. apply not_elem_of_nil.
Qed.

Lemma never_iff_no_days_witness :
  hours_until_next_cleaning (mkSchedule [] 8 0 11 0) (mkDatetime 3 12 0) = Inf
  <-> days (mkSchedule [] 8 0 11 0) = [].
Proof.
  apply never_iff_no_days.
  - unfold datetime_wf; simpl; lia.
  - intros d Hd. simpl in Hd. by apply not_elem_of_nil in Hd.
Defined.

(** ** The scenarios of the specification, run on the calculator *)

Example monday_window_one_hour_ahead :
  hours_until_next_cleaning (mkSchedule [0] 8 0 11 0) (mkDatetime 0 7 0) = Fin 1.
Proof. reflexivity. Qed.

Example monday_window_in_progress :
  hours_until_next_cleaning (mkSchedule [0] 8 0 11 0) (mkDatetime 0 9 30) = Fin 0.
Proof. reflexivity. Qed.

(** Outside the data model: a window that ends where it starts makes the
    calculator answer a full week, [168.0], at that very minute. *)
Example empty_window_full_week :
  hours_until_next_cleaning (mkSchedule [0] 8 0 8 0) (mkDatetime 0 8 0) = Fin 168.
Proof. reflexivity. Qed.

(** * Properties of the parser *)

Import Parser.

(** ** Time tokens *)

Lemma hour_digits_listed hd H : hour_digits hd H -> (hd, H) ∈ hour_texts.
Proof.
  intros [a Ha | a b Ha Hb]; unfold hour_texts; apply elem_of_app.
  - left. apply list_elem_of_fmap. exists a. split; [done |].
    apply elem_of_seqZ. lia.
  - right. apply list_elem_of_bind. exists a. split; [| apply elem_of_seqZ; lia].
    apply list_elem_of_fmap. exists b. split; [done |].
    apply elem_of_seqZ. lia.
Qed.

Lemma minute_part_listed md M : minute_part md M -> (md, M) ∈ minute_texts.
Proof.
  intros [| a b Ha Hb]; unfold minute_texts; [left |]. right.
  apply list_elem_of_bind. exists a. split; [| apply elem_of_seqZ; lia].
  apply list_elem_of_fmap. exists b. split; [done |].
  apply elem_of_seqZ. lia.
Qed.

Lemma meridiem_listed sfx pm : meridiem sfx pm -> (sfx, pm) ∈ meridiem_texts.
Proof.
  intros [sfx' Hin | sfx' Hin]; unfold meridiem_texts; apply elem_of_app;
    [left | right];
    apply list_elem_of_fmap in Hin as (x & -> & Hx);
    apply list_elem_of_fmap; by exists x.
Qed.

Lemma time_token_listed t H M pm :
  time_token t H M pm -> (t, (H, M, pm)) ∈ token_texts.
Proof.
  intros [hd md sfx H' M' pm' Hh Hm Hs]. unfold token_texts.
  apply list_elem_of_bind. exists (hd, H'). split; [| by apply hour_digits_listed].
  apply list_elem_of_bind. exists (md, M'). split; [| by apply minute_part_listed].
  apply list_elem_of_fmap. exists (sfx, pm'). split; [done |].
  by apply meridiem_listed.
Qed.

Lemma token_texts_checked :
  forallb (fun '(t, (H, M, pm)) =>
             match _parse_time t with
             | Ok (h, m) => (h =? twelve_hour_rule H pm) && (m =? M)
             | Raise _ => false
             end) token_texts = true.
Proof. vm_compute. reflexivity. Qed.

Lemma parse_time_of_token t H M pm :
  time_token t H M pm -> _parse_time t = Ok (twelve_hour_rule H pm, M).
Proof.
  intros Htok. apply time_token_listed, list_elem_of_In in Htok.
  pose proof (proj1 (forallb_forall _ _) token_texts_checked _ Htok) as Hok.
  simpl in Hok. destruct (_parse_time t) as [[h m] | e]; [| discriminate].
  apply andb_prop in Hok as [Hh Hm].
  apply Z.eqb_eq in Hh, Hm. by subst.
Qed.

Lemma time_token_bounds t H M pm :
  time_token t H M pm -> 0 <= H < 100 /\ 0 <= M < 100.
Proof.
  intros [hd md sfx H' M' pm' Hh Hm _].
  destruct Hh, Hm; lia.
Qed.

(** C5 (time-token normalization): for every token of the form
    H[:MM](AM|PM), in any letter case, [_parse_time] returns the minute MM
    (0 when absent) and the hour by the 12-hour rule: 12 AM gives 0, 12 PM
    stays 12, any other PM hour has 12 added, and the AM hours 1..11 are
    unchanged. *)
Theorem parse_time_twelve_hour (t : text) (H M : Z) (pm : bool) :
  time_token t H M pm ->
  exists h, _parse_time t = Ok (h, M) /\
    (pm = false -> H = 12 -> h = 0) /\
    (pm = true -> H = 12 -> h = 12) /\
    (pm = true -> H <> 12 -> h = H + 12) /\
    (pm = false -> 1 <= H <= 11 -> h = H).
Proof.
  intros Htok. exists (twelve_hour_rule H pm).
  split; [by apply parse_time_of_token |].
  unfold twelve_hour_rule.
  repeat split; intros -> HH; destruct (Z.eqb_spec H 12); lia.
Qed.

Lemma parse_time_twelve_hour_witness :
  exists h, _parse_time (str "12:30am") = Ok (h, 30) /\
    (false = false -> 12 = 12 -> h = 0) /\
    (false = true -> 12 = 12 -> h = 12) /\
    (false = true -> 12 <> 12 -> h = 12 + 12) /\
    (false = false -> 1 <= 12 <= 11 -> h = 12).
Proof.
  apply (parse_time_twelve_hour (str "12:30am") 12 30 false).
  apply (time_token_intro (str "12") (str ":30") (str "am") 12 30 false).
  - apply (hour_two 1 2); lia.
  - apply (minute_two 3 0); lia.
  - apply meridiem_am. vm_compute. do 3 right. left.
Defined.

(** ** The category gate *)

(** C7 (gate): a description whose upper-cased text does not contain the
    marker is turned down at once, whatever else it contains: the parser
    returns [None] from its first line and reads nothing further. *)
Theorem gate_rejects_unmarked (desc : text) :
  contains (str "SANITATION BROOM SYMBOL") (upper desc) = false ->
  parse_sign_description desc = Ok None /\
  rejection_of desc = Some NotARecognizedSign.
Proof.
  intros Hgate. unfold parse_sign_description, rejection_of.
  by rewrite Hgate.
Qed.

Lemma gate_rejects_unmarked_witness :
  parse_sign_description (str "NO PARKING MONDAY THURSDAY 8AM-11AM") = Ok None /\
  rejection_of (str "NO PARKING MONDAY THURSDAY 8AM-11AM") = Some NotARecognizedSign.
Proof. apply gate_rejects_unmarked. vm_compute. reflexivity. Defined.

(** ** The matcher only returns matches of the pattern *)

Lemma literal_sound ic u : forall prev t prev' t',
  literal ic u prev t = Some (prev', t') ->
  exists w, t = w ++ t' /\ Forall2 (fun p c => literal_eqb ic p c = true) u w.
Proof.
  induction u as [| p u IH]; intros prev t prev' t' Hlit; simpl in Hlit.
  - injection Hlit as _ ->. exists []. split; [done | constructor].
  - destruct t as [| c t]; [discriminate |].
    destruct (literal_eqb ic p c) eqn:Hpc; [| discriminate].
    apply IH in Hlit as (w & -> & Hw).
    exists (c :: w). split; [done | by constructor].
Qed.

Lemma advance_drop n : forall prev t, (advance n prev t).2 = drop n t.
Proof.
  induction n as [| n IH]; intros prev [| c t]; simpl; auto.
Qed.

Lemma run_take cl : forall t hi n,
  (n <= run cl hi t)%nat ->
  Forall (fun c => in_class cl c = true) (take n t) /\
  length (take n t) = n /\
  from_option (fun h => (n <= h)%nat) True hi.
Proof.
  induction t as [| c t IH]; intros hi n Hn; simpl in Hn.
  - assert (n = O) as -> by lia. simpl.
    split; [constructor |]. split; [done |]. destruct hi; simpl; lia.
  - destruct n as [| n].
    { simpl. split; [constructor |]. split; [done |]. destruct hi; simpl; lia. }
    assert (in_class cl c = true /\ (n <= run cl (pred <$> hi) t)%nat /\ hi <> Some O)
      as (Hc & Hrun & Hhi).
    { destruct hi as [[| h] |]; simpl in *; try lia;
        destruct (in_class cl c); try lia; repeat split; try done; lia. }
    destruct (IH _ _ Hrun) as (Hall & Hlen & Hbound).
    simpl. split; [by constructor |]. split; [by rewrite Hlen |].
    destruct hi as [[| h] |]; simpl in *; try done; lia.
Qed.

Lemma give_back_sound k prev t caps lo : forall extra res,
  give_back k prev t caps lo extra = Some res ->
  exists n, (lo <= n <= lo + extra)%nat /\
    (let '(prev', t') := advance n prev t in k prev' t' caps) = Some res.
Proof.
  induction extra as [| extra IH]; intros res Hgb; simpl in Hgb.
  - exists lo. split; [lia | done].
  - destruct (advance (lo + S extra) prev t) as [prev' t'] eqn:Hadv.
    destruct (k prev' t' caps) as [m |] eqn:Hk.
    + injection Hgb as <-. exists (lo + S extra)%nat.
      split; [lia |]. by rewrite Hadv.
    + apply IH in Hgb as (n & Hn & Hres). exists n. split; [lia | done].
Qed.

Lemma rmatch_sound ic r : forall prev t caps k res,
  rmatch ic r prev t caps k = Some res ->
  exists w prev' t' caps',
    t = w ++ t' /\ matches ic r w caps caps' /\ k prev' t' caps' = Some res.
Proof.
  induction r as [| u | cl lo hi | r1 IH1 r2 IH2 | r1 IH1 r2 IH2 | n r IH |];
    intros prev t caps k res Hm; simpl in Hm.
  - exists [], prev, t, caps. by repeat split.
  - destruct (literal ic u prev t) as [[prev' t'] |] eqn:Hlit; [| discriminate].
    apply literal_sound in Hlit as (w & -> & Hw).
    exists w, prev', t', caps. by repeat split.
  - destruct (run cl hi t <? lo)%nat eqn:Hlo; [discriminate |].
    apply Nat.ltb_ge in Hlo.
    apply give_back_sound in Hm as (n & Hn & Hk).
    destruct (advance n prev t) as [prev' t'] eqn:Hadv.
    pose proof (advance_drop n prev t) as Hdrop. rewrite Hadv in Hdrop.
    simpl in Hdrop. subst t'.
    destruct (run_take cl t hi n) as (Hall & Hlen & Hhi); [lia |].
    exists (take n t), prev', (drop n t), caps.
    split; [by rewrite take_drop |]. split; [| done].
    simpl. rewrite Hlen. repeat split; try done; lia.
  - apply IH1 in Hm as (w1 & prev1 & t1 & caps1 & -> & Hm1 & Hm).
    apply IH2 in Hm as (w2 & prev2 & t2 & caps2 & -> & Hm2 & Hk).
    exists (w1 ++ w2), prev2, t2, caps2.
    split; [by rewrite <- app_assoc |]. split; [| done].
    simpl. by exists w1, w2, caps1.
  - destruct (rmatch ic r1 prev t caps k) as [m |] eqn:Hm1.
    + injection Hm as <-.
      apply IH1 in Hm1 as (w & prev' & t' & caps' & -> & Hw & Hk).
      exists w, prev', t', caps'. split; [done |]. split; [by left | done].
    + apply IH2 in Hm as (w & prev' & t' & caps' & -> & Hw & Hk).
      exists w, prev', t', caps'. split; [done |]. split; [by right | done].
  - apply IH in Hm as (w & prev' & t' & caps' & -> & Hw & Hk).
    rewrite length_app, Nat.add_sub, take_app_length in Hk.
    exists w, prev', t', ((n, w) :: caps').
    split; [done |]. split; [| done]. simpl. by exists caps'.
  - destruct (word_boundary prev t); [| discriminate].
    exists [], prev, t, caps. by repeat split.
Qed.

Lemma match_at_sound ic r prev t len caps :
  match_at ic r prev t = Some (len, caps) ->
  exists w, matches ic r w [] caps.
Proof.
  unfold match_at. intros Hm.
  destruct (rmatch _ _ _ _ _ _) as [[t' caps'] |] eqn:Hr; [| discriminate].
  injection Hm as _ <-.
  apply rmatch_sound in Hr as (w & _ & t'' & caps'' & _ & Hw & Hk).
  injection Hk as _ <-. by exists w.
Qed.

Lemma search_from_sound ic r : forall t prev caps,
  search_from ic r prev t = Some caps -> exists w, matches ic r w [] caps.
Proof.
  induction t as [| c t IH]; intros prev caps Hs; simpl in Hs;
    destruct (match_at ic r prev _) as [[len caps'] |] eqn:Hm;
    try discriminate.
  - injection Hs as <-. by eapply match_at_sound.
  - injection Hs as <-. by eapply match_at_sound.
  - by eapply IH.
Qed.

Lemma findall_from_sound ic r : forall t skip prev d,
  d ∈ findall_from ic r skip prev t ->
  exists w caps, matches ic r w [] caps /\ d = group 1 caps.
Proof.
  induction t as [| c t IH]; intros skip prev d Hd.
  - destruct skip; simpl in Hd; [| by apply not_elem_of_nil in Hd].
    destruct (match_at ic r prev []) as [[len caps] |] eqn:Hm;
      [| by apply not_elem_of_nil in Hd].
    apply list_elem_of_singleton in Hd as ->.
    apply match_at_sound in Hm as (w & Hw). by exists w, caps.
  - destruct skip; simpl in Hd; [| by eapply IH].
    destruct (match_at ic r prev (c :: t)) as [[len caps] |] eqn:Hm;
      [| by eapply IH].
    apply elem_of_cons in Hd as [-> | Hd]; [| by eapply IH].
    apply match_at_sound in Hm as (w & Hw). by exists w, caps.
Qed.

(** ** Characters by exhaustion *)

Lemma all_ascii_complete c : c ∈ all_ascii.
Proof.
  unfold all_ascii. apply list_elem_of_fmap. exists (nat_of_ascii c).
  split; [by rewrite ascii_nat_embedding |].
  apply elem_of_seq. pose proof (nat_ascii_bounded c). lia.
Qed.

Lemma forall_ascii (f : ascii -> bool) :
  forallb f all_ascii = true -> forall c, f c = true.
Proof.
  intros Hall c. apply (proj1 (forallb_forall _ _) Hall).
  apply list_elem_of_In, all_ascii_complete.
Qed.

Lemma forall_ascii2 (f : ascii -> ascii -> bool) :
  forallb (fun p => forallb (f p) all_ascii) all_ascii = true ->
  forall p c, f p c = true.
Proof.
  intros Hall p c. apply forall_ascii.
  apply (forall_ascii (fun p => forallb (f p) all_ascii) Hall).
Qed.

Lemma isdigit_digit_char c :
  isdigit c = true -> exists a, 0 <= a < 10 /\ c = digit_char a.
Proof.
  intros Hc.
  assert (forallb
    (fun c => implb (isdigit c)
                ((0 <=? digit_value c) && (digit_value c <? 10) &&
                 Ascii.eqb c (digit_char (digit_value c))))
    all_ascii = true) as Hall by (vm_compute; reflexivity).
  apply forall_ascii with (c := c) in Hall. rewrite Hc in Hall.
  apply andb_prop in Hall as [Hrange Heq]. apply andb_prop in Hrange as [Hlo Hhi].
  exists (digit_value c). split; [lia |]. by apply Ascii.eqb_eq.
Qed.

Lemma literal_ic_cases p c :
  literal_eqb true p c = true -> c = p \/ c = lower_char p \/ c = upper_char p.
Proof.
  intros Hpc.
  assert (forallb (fun p => forallb
    (fun c => implb (literal_eqb true p c)
                (Ascii.eqb c p || Ascii.eqb c (lower_char p) ||
                 Ascii.eqb c (upper_char p)))
    all_ascii) all_ascii = true) as Hall by (vm_compute; reflexivity).
  apply forall_ascii2 with (p := p) (c := c) in Hall. rewrite Hpc in Hall.
  apply orb_prop in Hall as [Hall | Hall]; [apply orb_prop in Hall as [Hall | Hall] |];
    apply Ascii.eqb_eq in Hall; auto.
Qed.

Lemma literal_ic_upper p c :
  literal_eqb true p c = true -> isupper p = true -> upper_char c = p.
Proof.
  intros Hpc Hp.
  assert (forallb (fun p => forallb
    (fun c => implb (literal_eqb true p c && isupper p)
                (Ascii.eqb (upper_char c) p))
    all_ascii) all_ascii = true) as Hall by (vm_compute; reflexivity).
  apply forall_ascii2 with (p := p) (c := c) in Hall.
  rewrite Hpc, Hp in Hall. by apply Ascii.eqb_eq.
Qed.

Lemma literal_ic_upper_text u : forall w,
  Forall2 (fun p c => literal_eqb true p c = true) u w ->
  forallb isupper u = true -> upper w = u.
Proof.
  induction u as [| p u IH]; intros w Hw Hu.
  - by apply Forall2_nil_inv_l in Hw as ->.
  - apply Forall2_cons_inv_l in Hw as (c & w' & Hc & Hw & ->).
    simpl in Hu. apply andb_prop in Hu as [Hp Hu]. simpl.
    f_equal; [by apply literal_ic_upper | by apply IH].
Qed.

(** ** What [TIME_RE] and [DAY_RE] capture *)

Lemma digits_spell_hour w :
  Forall (fun c => isdigit c = true) w -> (1 <= length w <= 2)%nat ->
  exists H, hour_digits w H.
Proof.
  intros Hdig Hlen.
  destruct w as [| c1 [| c2 [| c3 w]]]; simpl in Hlen; try lia.
  - apply Forall_cons in Hdig as [(a & Ha & ->)%isdigit_digit_char _].
    exists a. by constructor.
  - apply Forall_cons in Hdig as [(a & Ha & ->)%isdigit_digit_char Hdig].
    apply Forall_cons in Hdig as [(b & Hb & ->)%isdigit_digit_char _].
    exists (10 * a + b). by constructor.
Qed.

Lemma digits_spell_minute wa wb :
  Forall2 (fun p c => literal_eqb true p c = true) (str ":") wa ->
  Forall (fun c => isdigit c = true) wb -> length wb = 2%nat ->
  exists M, minute_part (wa ++ wb) M.
Proof.
  intros Hcolon Hdig Hlen.
  apply Forall2_cons_inv_l in Hcolon as (c & wa' & Hc & Hnil & ->).
  apply Forall2_nil_inv_l in Hnil as ->.
  assert (c = ":"%char) as ->
    by (by destruct (literal_ic_cases _ _ Hc) as [-> | [-> | ->]]).
  destruct wb as [| c1 [| c2 [| c3 wb]]]; simpl in Hlen; try lia.
  apply Forall_cons in Hdig as [(a & Ha & ->)%isdigit_digit_char Hdig].
  apply Forall_cons in Hdig as [(b & Hb & ->)%isdigit_digit_char _].
  exists (10 * a + b). by constructor.
Qed.

Lemma letters_spell_meridiem (u : string) pm w :
  (u, pm) ∈ [("AM"%string, false); ("PM"%string, true)] ->
  Forall2 (fun p c => literal_eqb true p c = true) (str u) w ->
  meridiem w pm.
Proof.
  intros Hu Hw.
  assert (exists x y, w = [x; y] /\
            literal_eqb true (default "?"%char (str u !! 0%nat)) x = true /\
            literal_eqb true (default "?"%char (str u !! 1%nat)) y = true)
    as (x & y & -> & Hx & Hy).
  { apply elem_of_cons in Hu as [[= -> ->] | Hu];
      [| apply list_elem_of_singleton in Hu as [= -> ->]];
      apply Forall2_cons_inv_l in Hw as (x & w' & Hx & Hw & ->);
      apply Forall2_cons_inv_l in Hw as (y & w'' & Hy & Hw & ->);
      apply Forall2_nil_inv_l in Hw as ->; by exists x, y. }
  apply elem_of_cons in Hu as [[= -> ->] | Hu];
    [| apply list_elem_of_singleton in Hu as [= -> ->]];
    simpl in Hx, Hy;
    destruct (literal_ic_cases _ _ Hx) as [-> | [-> | ->]];
    destruct (literal_ic_cases _ _ Hy) as [-> | [-> | ->]];
    constructor; vm_compute; repeat first [by left | right].
Qed.

Lemma TIME_TOKEN_matches w caps caps' :
  matches true TIME_TOKEN w caps caps' ->
  caps' = caps /\ exists H M pm, time_token w H M pm.
Proof.
  unfold TIME_TOKEN, Opt. cbn [matches].
  intros (w1 & w23 & c1 & -> & ((Hdig & Hlo & Hhi) & ->) &
          (w2 & w3 & c2 & -> & Hmin & Hmer)).
  simpl in Hhi.
  destruct (digits_spell_hour w1) as (H & HH); [done | lia |].
  assert (c2 = caps /\ exists M, minute_part w2 M) as (-> & M & HM).
  { destruct Hmin as [(wa & wb & c3 & -> & (Hcolon & ->) & ((Hd & Hl & Hh) & ->))
                     | (-> & ->)].
    - split; [done |]. simpl in Hh. apply digits_spell_minute; [done | done | lia].
    - split; [done |]. exists 0. constructor. }
  assert (caps' = caps /\ exists pm, meridiem w3 pm) as (-> & pm & Hpm).
  { destruct Hmer as [(Hw & ->) | (Hw & ->)]; (split; [done |]).
    - exists false. apply (letters_spell_meridiem "AM"); [left | done].
    - exists true. apply (letters_spell_meridiem "PM"); [right; left | done]. }
  split; [done |]. exists H, M, pm. by constructor.
Qed.

Lemma TIME_RE_matches w caps :
  matches true TIME_RE w [] caps ->
  (exists H M pm, time_token (group 1 caps) H M pm) /\
  (exists H M pm, time_token (group 2 caps) H M pm).
Proof.
  unfold TIME_RE. cbn [matches].
  intros (w1 & w' & c1 & -> & (c0 & Htok1 & ->) &
          (ws1 & w'' & c2 & -> & (_ & ->) &
           (wd & w''' & c3 & -> & (_ & ->) &
            (ws2 & w2 & c4 & -> & (_ & ->) & (c5 & Htok2 & ->))))).
  apply TIME_TOKEN_matches in Htok1 as (-> & Htok1).
  apply TIME_TOKEN_matches in Htok2 as (-> & Htok2).
  by split.
Qed.

Lemma search_TIME_RE_tokens desc time_match :
  search true TIME_RE desc = Some time_match ->
  (exists H M pm, time_token (group 1 time_match) H M pm) /\
  (exists H M pm, time_token (group 2 time_match) H M pm).
Proof.
  intros Hs. apply search_from_sound in Hs as (w & Hw).
  by eapply TIME_RE_matches.
Qed.

Lemma alternation_matches ws : forall w caps caps',
  ws <> [] ->
  matches true (alternation ws) w caps caps' ->
  caps' = caps /\
  exists u, u ∈ ws /\ Forall2 (fun p c => literal_eqb true p c = true) u w.
Proof.
  induction ws as [| u ws IH]; intros w caps caps' Hne Hm; [done |].
  destruct ws as [| u' ws].
  - destruct Hm as (Hw & ->). split; [done |]. exists u. split; [left | done].
  - change (matches true (Alt (Str u) (alternation (u' :: ws))) w caps caps') in Hm.
    destruct Hm as [(Hw & ->) | Hm].
    + split; [done |]. exists u. split; [left | done].
    + apply IH in Hm as (-> & u0 & Hu0 & Hw); [| done].
      split; [done |]. exists u0. split; [by right | done].
Qed.

Lemma getitem_range key v :
  getitem DAYS_OF_WEEK key = Ok v -> 0 <= v < 7.
Proof.
  unfold DAYS_OF_WEEK. cbn [getitem].
  repeat (case_decide; [intros [= <-]; lia |]). discriminate.
Qed.

(** A day name found by [DAY_RE] is, in upper case, a key of
    [DAYS_OF_WEEK]. *)
Lemma DAY_RE_matches w caps :
  matches true DAY_RE w [] caps ->
  exists v, getitem DAYS_OF_WEEK (upper (group 1 caps)) = Ok v.
Proof.
  unfold DAY_RE. cbn [matches].
  intros (w0 & w' & c0 & -> & (_ & ->) &
          (w1 & w2 & c1 & -> & (c2 & Halt & ->) & (_ & ->))).
  apply alternation_matches in Halt as (-> & u & Hu & Hw); [| done].
  change (group 1 [(1%nat, w1)]) with w1.
  assert (Forall (fun u => forallb isupper u = true /\
                           exists v, getitem DAYS_OF_WEEK u = Ok v)
                 (map fst DAYS_OF_WEEK)) as Hkeys.
  { repeat constructor; eexists; vm_compute; reflexivity. }
  rewrite Forall_forall in Hkeys. destruct (Hkeys u Hu) as (Hup & v & Hv).
  exists v. by rewrite (literal_ic_upper_text u w1 Hw Hup).
Qed.

Lemma findall_DAY_RE_keys t d :
  d ∈ findall true DAY_RE t ->
  exists v, getitem DAYS_OF_WEEK (upper d) = Ok v.
Proof.
  intros Hd. apply findall_from_sound in Hd as (w & caps & Hw & ->).
  by eapply DAY_RE_matches.
Qed.

Lemma mapM_Ok {A B} (f : A -> result B) (l : list A) :
  (forall x, x ∈ l -> exists y, f x = Ok y) ->
  exists ys, mapM f l = Ok ys /\ Forall2 (fun x y => f x = Ok y) l ys.
Proof.
  induction l as [| x l IH]; intros Hall.
  - exists []. split; [done | constructor].
  - destruct (Hall x) as (y & Hy); [left |].
    destruct IH as (ys & Hys & Hrel); [intros z Hz; apply Hall; by right |].
    exists (y :: ys). split; [| by constructor].
    simpl. rewrite Hy. simpl. rewrite Hys. done.
Qed.

(** ** [sorted] *)

Lemma elem_of_sorted (s : gset Z) n : n ∈ sorted s <-> n ∈ s.
Proof.
  unfold sorted. rewrite merge_sort_Permutation. apply elem_of_elements.
Qed.

Lemma sorted_NoDup (s : gset Z) : NoDup (sorted s).
Proof.
  unfold sorted. rewrite merge_sort_Permutation. apply NoDup_elements.
Qed.

Lemma sorted_ascending (s : gset Z) : StronglySorted Z.lt (sorted s).
Proof.
  pose proof (sorted_NoDup s) as Hnd.
  assert (StronglySorted Z.le (sorted s)) as Hle.
  { unfold sorted. apply (StronglySorted_merge_sort Z.le); apply _. }
  induction Hle as [| n l Hl IH Hall]; [constructor |].
  apply NoDup_cons in Hnd as [Hn Hnd]. constructor; [by apply IH |].
  rewrite Forall_forall in Hall |- *. intros m Hm.
  specialize (Hall m Hm). assert (m <> n) by (by intros ->). lia.
Qed.

(** ** What [parse_sign_description] returns *)

Lemma day_numbers_Ok upper_desc :
  exists nums,
    mapM (fun d => getitem DAYS_OF_WEEK (upper d)) (day_matches_of upper_desc)
      = Ok nums /\
    Forall2 (fun d v => getitem DAYS_OF_WEEK (upper d) = Ok v)
            (day_matches_of upper_desc) nums.
Proof.
  apply mapM_Ok. intros d Hd. by eapply findall_DAY_RE_keys.
Qed.

Lemma parse_rejects desc reason :
  rejection_of desc = Some reason -> parse_sign_description desc = Ok None.
Proof.
  unfold rejection_of, parse_sign_description.
  destruct (negb (contains _ (upper desc))); [done |].
  case_decide; [done |].
  case_decide as Hsearch; [| done]. intros _.
  destruct (day_numbers_Ok (upper desc)) as (nums & -> & _).
  rewrite Hsearch. by case_decide.
Qed.

Lemma parse_accepts desc :
  rejection_of desc = None ->
  exists nums time_match H1 M1 pm1 H2 M2 pm2,
    Forall2 (fun d v => getitem DAYS_OF_WEEK (upper d) = Ok v)
            (day_matches_of (upper desc)) nums /\
    search true TIME_RE desc = Some time_match /\
    time_token (group 1 time_match) H1 M1 pm1 /\
    time_token (group 2 time_match) H2 M2 pm2 /\
    parse_sign_description desc =
    Ok (Some (mkSchedule
                (sorted ((if decide (day_matches_of (upper desc) <> [])
                          then list_to_set nums
                          else list_to_set (seqZ 0 7)) ∖
                         except_days_of (upper desc)))
                (twelve_hour_rule H1 pm1) M1 (twelve_hour_rule H2 pm2) M2)).
Proof.
  unfold rejection_of, parse_sign_description.
  destruct (negb (contains _ (upper desc))); [done |].
  case_decide; [done |].
  case_decide as Hsearch; [done |]. intros _.
  destruct (day_numbers_Ok (upper desc)) as (nums & Hnums & Hrel).
  destruct (search true TIME_RE desc) as [time_match |] eqn:Hs; [| done].
  destruct (search_TIME_RE_tokens _ _ Hs)
    as ((H1 & M1 & pm1 & Htok1) & (H2 & M2 & pm2 & Htok2)).
  exists nums, time_match, H1, M1, pm1, H2, M2, pm2.
  do 4 (split; [done |]).
  rewrite Hnums, (parse_time_of_token _ _ _ _ Htok1),
    (parse_time_of_token _ _ _ _ Htok2).
  by case_decide.
Qed.

Lemma elem_of_except_days upper_desc n :
  n ∈ except_days_of upper_desc <->
  exists day_name, (day_name, n) ∈ DAYS_OF_WEEK /\
    contains (str "EXCEPT " ++ day_name) upper_desc = true.
Proof.
  unfold except_days_of.
  assert (forall (items : list (text * Z)) (acc : gset Z),
    n ∈ foldl (fun (except_days : gset Z) '(day_name, day_num) =>
                 if contains (str "EXCEPT " ++ day_name) upper_desc
                 then except_days ∪ {[ day_num ]} else except_days) acc items <->
    n ∈ acc \/ exists day_name, (day_name, n) ∈ items /\
      contains (str "EXCEPT " ++ day_name) upper_desc = true) as Hfold.
  { induction items as [| [name num] items IH]; intros acc.
    - cbn [foldl]. split; [by left |]. intros [Hacc | (name & Hin & _)]; [done |].
      by apply not_elem_of_nil in Hin.
    - cbn [foldl]. rewrite IH. split.
      + intros [Hacc | (name' & Hin & Hc)].
        * destruct (contains (str "EXCEPT " ++ name) upper_desc) eqn:Hc;
            [| by left].
          apply elem_of_union in Hacc as [Hacc | Hnum]; [by left |].
          apply elem_of_singleton in Hnum as ->.
          right. exists name. split; [left | done].
        * right. exists name'. split; [by right | done].
      + intros [Hacc | (name' & Hin & Hc)].
        * left. destruct (contains _ upper_desc); [| done].
          apply elem_of_union. by left.
        * apply elem_of_cons in Hin as [[= -> ->] | Hin].
          -- left. rewrite Hc. apply elem_of_union. right.
             by apply elem_of_singleton.
          -- right. by exists name'. }
  rewrite Hfold. split; [| by right].
  intros [Hempty | Hex]; [| done]. by apply not_elem_of_empty in Hempty.
Qed.

(** ** Claims about [parse_sign_description] *)

(** C10 (days field): the days of every returned schedule are strictly
    ascending, hence without duplicates, and all lie in 0..6. *)
Theorem parsed_days_ascending (desc : text) (s : CleaningSchedule) :
  parse_sign_description desc = Ok (Some s) ->
  StronglySorted Z.lt (days s) /\ NoDup (days s) /\
  forall n, n ∈ days s -> 0 <= n <= 6.
Proof.
  intros Hs. destruct (rejection_of desc) as [reason |] eqn:Hrej.
  { apply parse_rejects in Hrej. congruence. }
  apply parse_accepts in Hrej
    as (nums & tm & H1 & M1 & pm1 & H2 & M2 & pm2 & Hrel & _ & _ & _ & Heq).
  match type of Heq with
  | _ = Ok (Some ?parsed) => assert (s = parsed) as -> by congruence
  end.
  cbn [days]. split; [apply sorted_ascending |]. split; [apply sorted_NoDup |].
  intros n Hn. rewrite elem_of_sorted, elem_of_difference in Hn.
  destruct Hn as [Hn _]. case_decide; rewrite elem_of_list_to_set in Hn.
  - apply list_elem_of_lookup in Hn as (i & Hi).
    destruct (Forall2_lookup_r _ _ _ _ _ Hrel Hi) as (d & _ & Hget).
    apply getitem_range in Hget. lia.
  - apply elem_of_seqZ in Hn. lia.
Qed.

Lemma parsed_days_ascending_witness :
  StronglySorted Z.lt [0; 1; 2; 3; 4] /\ NoDup [0; 1; 2; 3; 4] /\
  forall n, n ∈ [0; 1; 2; 3; 4] -> 0 <= n <= 6.
Proof.
  apply (parsed_days_ascending
           (str "SANITATION BROOM SYMBOL SATURDAY MONDAY EXCEPT SUNDAY friday Monday thursday, wednesday TUESDAY EXCEPT SATURDAY 8AM-6PM")
           (mkSchedule [0; 1; 2; 3; 4] 8 0 18 0)).
  vm_compute. reflexivity.
Defined.

(** C8, as the code has it: the window of every returned schedule is the
    first time range of the description, converted token by token; its
    hours lie in 0..111 and its minutes in 0..99, the reach of one or two
    digits under the 12-hour rule.  Start and end are not compared. *)
Theorem parsed_window_unvalidated (desc : text) (s : CleaningSchedule) :
  parse_sign_description desc = Ok (Some s) ->
  (exists time_match,
     search true TIME_RE desc = Some time_match /\
     _parse_time (group 1 time_match) = Ok (start_hour s, start_minute s) /\
     _parse_time (group 2 time_match) = Ok (end_hour s, end_minute s)) /\
  (0 <= start_hour s <= 111 /\ 0 <= start_minute s <= 99) /\
  (0 <= end_hour s <= 111 /\ 0 <= end_minute s <= 99).
Proof.
  intros Hs. destruct (rejection_of desc) as [reason |] eqn:Hrej.
  { apply parse_rejects in Hrej. congruence. }
  apply parse_accepts in Hrej
    as (nums & tm & H1 & M1 & pm1 & H2 & M2 & pm2 & _ & Hsearch & Htok1 & Htok2 & Heq).
  match type of Heq with
  | _ = Ok (Some ?parsed) => assert (s = parsed) as -> by congruence
  end.
  cbn [start_hour start_minute end_hour end_minute].
  pose proof (time_token_bounds _ _ _ _ Htok1) as [HH1 HM1].
  pose proof (time_token_bounds _ _ _ _ Htok2) as [HH2 HM2].
  split.
  - exists tm. split; [done |]. split; by apply parse_time_of_token.
  - unfold twelve_hour_rule.
    destruct pm1, pm2, (H1 =? 12), (H2 =? 12); lia.
Qed.

Lemma parsed_window_unvalidated_witness :
  (exists time_match,
     search true TIME_RE (str "SANITATION BROOM SYMBOL FRIDAY 99PM-9:99AM")
       = Some time_match /\
     _parse_time (group 1 time_match) = Ok (111, 0) /\
     _parse_time (group 2 time_match) = Ok (9, 99)) /\
  (0 <= 111 <= 111 /\ 0 <= 0 <= 99) /\ (0 <= 9 <= 111 /\ 0 <= 99 <= 99).
Proof.
  apply (parsed_window_unvalidated
           (str "SANITATION BROOM SYMBOL FRIDAY 99PM-9:99AM")
           (mkSchedule [4] 111 0 9 99)).
  vm_compute. reflexivity.
Defined.

(** C8 fails as stated: a first time range that ends before it starts, or
    whose digits spell no time of day, still yields a schedule. *)
Lemma parsed_window_invariant_counterexample :
  parse_sign_description (str "SANITATION BROOM SYMBOL MONDAY 11AM-8AM")
    = Ok (Some (mkSchedule [0] 11 0 8 0)) /\
  ~ (start_minutes (mkSchedule [0] 11 0 8 0) < end_minutes (mkSchedule [0] 11 0 8 0)) /\
  parse_sign_description (str "SANITATION BROOM SYMBOL MONDAY 8:75AM-25PM")
    = Ok (Some (mkSchedule [0] 8 75 37 0)) /\
  ~ (0 <= start_minute (mkSchedule [0] 8 75 37 0) < 60) /\
  ~ (0 <= end_hour (mkSchedule [0] 8 75 37 0) < 24).
Proof.
  split; [vm_compute; reflexivity |]. split; [vm_compute; intros [=] |].
  split; [vm_compute; reflexivity |]. simpl. lia.
Qed.

(** C9, as the code has it: on an ASCII description the parser raises
    nothing and returns either a schedule or the one value [None]; it
    returns [None] exactly when the marker, the day information or the time
    range is missing, whichever it is. *)
Theorem parse_returns_schedule_or_None (desc : text) :
  isascii desc = true ->
  exists outcome,
    parse_sign_description desc = Ok outcome /\
    (outcome = None <-> rejection_of desc <> None).
Proof.
  intros _. destruct (rejection_of desc) as [reason |] eqn:Hrej.
  - exists None. split; [by eapply parse_rejects | done].
  - apply parse_accepts in Hrej
      as (nums & tm & H1 & M1 & pm1 & H2 & M2 & pm2 & _ & _ & _ & _ & Heq).
    eexists. split; [done |]. split; [discriminate | done].
Qed.

Lemma parse_returns_schedule_or_None_witness :
  exists outcome,
    parse_sign_description (str "SANITATION BROOM SYMBOL MONDAY 8AM-11AM")
      = Ok outcome /\
    (outcome = None <->
     rejection_of (str "SANITATION BROOM SYMBOL MONDAY 8AM-11AM") <> None).
Proof.
  apply parse_returns_schedule_or_None. vm_compute. reflexivity.
Defined.

(** C9 fails as stated: three descriptions turned down for the three
    different reasons all give the same outcome, [None]. *)
Lemma failure_reasons_counterexample :
  rejection_of (str "NO PARKING MONDAY 8AM-11AM") = Some NotARecognizedSign /\
  rejection_of (str "SANITATION BROOM SYMBOL 8AM-11AM") = Some NoDayInformation /\
  rejection_of (str "SANITATION BROOM SYMBOL MONDAY") = Some NoTimeWindow /\
  parse_sign_description (str "NO PARKING MONDAY 8AM-11AM") = Ok None /\
  parse_sign_description (str "SANITATION BROOM SYMBOL 8AM-11AM") = Ok None /\
  parse_sign_description (str "SANITATION BROOM SYMBOL MONDAY") = Ok None.
Proof. repeat split; vm_compute; reflexivity. Qed.

(** ** The scenarios of the specification, run on the parser *)

Example parse_monday_window :
  parse_sign_description (str "SANITATION BROOM SYMBOL MONDAY 8AM-11AM")
  = Ok (Some (mkSchedule [0] 8 0 11 0)).
Proof. vm_compute. reflexivity. Qed.

Example parse_weekdays_except_tuesday :
  parse_sign_description (str
    "SANITATION BROOM SYMBOL MONDAY TUESDAY WEDNESDAY THURSDAY FRIDAY EXCEPT TUESDAY 9AM-10AM")
  = Ok (Some (mkSchedule [0; 2; 3; 4] 9 0 10 0)).
Proof. vm_compute. reflexivity. Qed.

(** "EXCEPT SUNDAY 8AM-6PM" means six days once the marker is there; the
    bare text stops at the gate. *)
Example parse_except_sunday :
  parse_sign_description (str "SANITATION BROOM SYMBOL EXCEPT SUNDAY 8AM-6PM")
  = Ok (Some (mkSchedule [0; 1; 2; 3; 4; 5] 8 0 18 0)) /\
  parse_sign_description (str "EXCEPT SUNDAY 8AM-6PM") = Ok None.
Proof. split; vm_compute; reflexivity. Qed.

Example parse_no_day_information :
  parse_sign_description (str "SANITATION BROOM SYMBOL 8AM-11AM") = Ok None.
Proof. vm_compute. reflexivity. Qed.

(** The parser hands the calculator a window it never checked. *)
Example parse_empty_window :
  parse_sign_description (str "SANITATION BROOM SYMBOL MONDAY 8AM-8AM")
  = Ok (Some (mkSchedule [0] 8 0 8 0)).
Proof. vm_compute. reflexivity. Qed.

(** * More about the calculator *)

Lemma truediv60_zero n : truediv60 n = 0%Q -> n = 0.
Proof.
  intros Hn. pose proof (truediv60_eq n) as Heq. rewrite Hn in Heq.
  unfold Qeq in Heq. simpl in Heq. lia.
Qed.

Lemma truediv60_nonneg n : 0 <= n -> (0 <= truediv60 n)%Q.
Proof.
  intros Hn. rewrite truediv60_eq. unfold Qle. simpl. lia.
Qed.

Section SchedulerOutcome.

Context (schedule : CleaningSchedule) (now : datetime).

Local Abbreviation wd := (weekday now).
Local Abbreviation cur := (current_minutes now).
Local Abbreviation st := (start_minutes schedule).
Local Abbreviation en := (end_minutes schedule).

(** Scanning the offsets [a, a+1, ..] upwards from a later day: either no
    day among them is active, or the first active one answers. *)
Lemma scan_upwards (n : nat) : forall a, 1 <= a ->
  (scan schedule wd cur st en (seqZ a (Z.of_nat n)) = Inf /\
   forall k, a <= k < a + Z.of_nat n -> (wd + k) mod 7 ∉ days schedule) \/
  (exists k, a <= k < a + Z.of_nat n /\ (wd + k) mod 7 ∈ days schedule /\
     (forall j, a <= j < k -> (wd + j) mod 7 ∉ days schedule) /\
     scan schedule wd cur st en (seqZ a (Z.of_nat n)) =
     Fin (truediv60 (k * 24 * 60 + st - cur))).
Proof.
  induction n as [| n IH]; intros a Ha.
  - left. split; [done | lia].
  - rewrite Nat2Z.inj_succ, seqZ_cons, Z.pred_succ by lia.
    destruct (decide ((wd + a) mod 7 ∈ days schedule)) as [Hin | Hout].
    + right. exists a. split; [lia |]. split; [done |]. split; [lia |].
      apply scan_future; [lia | done].
    + rewrite scan_miss by done.
      destruct (IH (Z.succ a)) as [(Hinf & Hmiss) | (k & Hk & Hin & Hmin & Heq)];
        [lia | |].
      * left. split; [done |]. intros k Hk.
        destruct (decide (k = a)) as [-> | Hne]; [done | apply Hmiss; lia].
      * right. exists k. split; [lia |]. split; [done |]. split; [| done].
        intros j Hj. destruct (decide (j = a)) as [-> | Hne]; [done |].
        apply Hmin. lia.
Qed.

(** Every way the calculator can answer. *)
Lemma hours_outcome :
  0 <= wd < 7 ->
  (active_at schedule now /\ hours_until_next_cleaning schedule now = Fin 0) \/
  (wd ∈ days schedule /\ cur < st /\
   hours_until_next_cleaning schedule now = Fin (truediv60 (st - cur))) \/
  ((wd ∈ days schedule -> st <= cur /\ en <= cur) /\
   ((hours_until_next_cleaning schedule now = Inf /\
     forall k, 1 <= k <= 7 -> (wd + k) mod 7 ∉ days schedule) \/
    (exists k, 1 <= k <= 7 /\ (wd + k) mod 7 ∈ days schedule /\
       (forall j, 1 <= j < k -> (wd + j) mod 7 ∉ days schedule) /\
       hours_until_next_cleaning schedule now =
       Fin (truediv60 (k * 24 * 60 + st - cur))))).
Proof.
  intros Hwd.
  assert ((wd + 0) mod 7 = wd) as Htoday
    by (rewrite Z.add_0_r; apply Z.mod_small; lia).
  pose proof (scan_upwards 7 1 ltac:(lia)) as Hlater.
  change (Z.of_nat 7) with 7 in Hlater.
  assert ((wd ∈ days schedule -> st <= cur /\ en <= cur) ->
          hours_until_next_cleaning schedule now =
          scan schedule wd cur st en (seqZ 1 7)) as Hskip.
  { intros Hpast. rewrite hours_unfold. cbn [scan]. rewrite Htoday.
    case_decide; [done |]. case_decide; [| done].
    assert (wd ∈ days schedule) as Hday
      by (destruct (decide (wd ∈ days schedule)); [done | contradiction]).
    specialize (Hpast Hday).
    case_decide; [lia |]. case_decide; [lia | done]. }
  destruct (decide (wd ∈ days schedule)) as [Hday | Hday].
  - destruct (decide (st <= cur < en)) as [Hact | Hact].
    { left. split; [done |]. rewrite hours_unfold. cbn [scan]. rewrite Htoday.
      case_decide; [contradiction |]. case_decide; [| done].
      case_decide; [done | contradiction]. }
    destruct (decide (cur < st)) as [Hlt | Hge].
    { right; left. split; [done |]. split; [done |].
      rewrite hours_unfold. cbn [scan]. rewrite Htoday.
      case_decide; [contradiction |]. case_decide; [| done].
      case_decide; [contradiction |]. case_decide; [done | contradiction]. }
    right; right. assert (st <= cur /\ en <= cur) as Hpast by lia.
    split; [done |]. rewrite Hskip by done.
    destruct Hlater as [(Hinf & Hmiss) | (k & Hk & Hin & Hmin & Heq)].
    + left. split; [done |]. intros k Hk. apply Hmiss. lia.
    + right. exists k. split; [lia | done].
  - right; right. split; [done |]. rewrite Hskip by done.
    destruct Hlater as [(Hinf & Hmiss) | (k & Hk & Hin & Hmin & Heq)].
    + left. split; [done |]. intros k Hk. apply Hmiss. lia.
    + right. exists k. split; [lia | done].
Qed.

End SchedulerOutcome.

(** X1 (zero means in progress): for a schedule whose window does not start
    before midnight, the calculator returns [0.0] exactly when cleaning is
    in progress at [now]. *)
Theorem zero_iff_in_progress (schedule : CleaningSchedule) (now : datetime) :
  datetime_wf now ->
  0 <= start_minutes schedule ->
  hours_until_next_cleaning schedule now = Fin 0 <-> active_at schedule now.
Proof.
  intros (Hwd & Hh & Hm) Hst.
  assert (0 <= current_minutes now < 24 * 60) as Hcur
    by (unfold current_minutes; lia).
  destruct (hours_outcome schedule now Hwd)
    as [(Hact & Heq) | [(Hday & Hlt & Heq)
       | (Hpast & [(Heq & _) | (k & Hk & _ & _ & Heq)])]];
    rewrite Heq; split; try done.
  - intros [= Hz]. apply truediv60_zero in Hz. lia.
  - intros (_ & Hact). lia.
  - intros (Hday & Hact). specialize (Hpast Hday). lia.
  - intros [= Hz]. apply truediv60_zero in Hz. lia.
  - intros (Hday & Hact). specialize (Hpast Hday). lia.
Qed.

Lemma zero_iff_in_progress_witness :
  hours_until_next_cleaning (mkSchedule [1; 3] 9 0 10 30) (mkDatetime 3 9 0) = Fin 0
  <-> active_at (mkSchedule [1; 3] 9 0 10 30) (mkDatetime 3 9 0).
Proof.
  apply zero_iff_in_progress.
  - unfold datetime_wf; simpl; lia.
  - unfold start_minutes; simpl; lia.
Defined.

(** X2 (the answer is the next start): when cleaning is not in progress and
    the calculator returns a finite number of hours, that number is [m/60]
    for a positive number of minutes [m] after which a window of the
    schedule starts, and no window starts sooner. *)
Theorem answer_is_next_start (schedule : CleaningSchedule) (now : datetime) (q : Q) :
  datetime_wf now ->
  0 <= start_minutes schedule < 24 * 60 ->
  ~ active_at schedule now ->
  hours_until_next_cleaning schedule now = Fin q ->
  exists m, 0 < m /\ q = truediv60 m /\ starts_at schedule now m /\
    forall m', 0 < m' < m -> ~ starts_at schedule now m'.
Proof.
  intros (Hwd & Hh & Hm) Hst Hnact Hq.
  assert (0 <= current_minutes now < 24 * 60) as Hcur
    by (unfold current_minutes; lia).
  assert ((weekday now + 0) mod 7 = weekday now) as Htoday
    by (rewrite Z.add_0_r; apply Z.mod_small; lia).
  destruct (hours_outcome schedule now Hwd)
    as [(Hact & _) | [(Hday & Hlt & Heq)
       | (Hpast & [(Heq & _) | (k & Hk & Hin & Hmin & Heq)])]];
    [done | | congruence |]; rewrite Heq in Hq; injection Hq as <-.
  - exists (start_minutes schedule - current_minutes now).
    split; [lia |]. split; [done |]. split.
    + unfold starts_at.
      replace (current_minutes now + (start_minutes schedule - current_minutes now))
        with (start_minutes schedule) by lia.
      rewrite Z.div_small, Htoday by lia. split; [done |].
      apply Z.mod_small; lia.
    + intros m' Hm' (_ & Hmin'). rewrite Z.mod_small in Hmin' by lia. lia.
  - exists (k * 24 * 60 + start_minutes schedule - current_minutes now).
    split; [lia |]. split; [done |]. split.
    + unfold starts_at.
      replace (current_minutes now +
               (k * 24 * 60 + start_minutes schedule - current_minutes now))
        with (start_minutes schedule + k * (24 * 60)) by lia.
      rewrite Z.div_add, Z.div_small, Z.mod_add by lia.
      split; [done | apply Z.mod_small; lia].
    + intros m' Hm' (Hday' & Hmin').
      set (j := (current_minutes now + m') / (24 * 60)) in *.
      assert (current_minutes now + m' = j * (24 * 60) + start_minutes schedule)
        as Hsplit.
      { pose proof (Z.div_mod (current_minutes now + m') (24 * 60) ltac:(lia)).
        subst j. lia. }
      assert (0 <= j < k) as Hj by lia.
      destruct (decide (j = 0)) as [Hj0 | Hj0].
      * rewrite Hj0, Htoday in Hday'. specialize (Hpast Hday'). lia.
      * apply (Hmin j); [lia | done].
Qed.

Lemma answer_is_next_start_witness :
  exists m, 0 < m /\ 164%Q = truediv60 m /\
    starts_at (mkSchedule [0] 8 0 11 0) (mkDatetime 0 12 0) m /\
    forall m', 0 < m' < m -> ~ starts_at (mkSchedule [0] 8 0 11 0) (mkDatetime 0 12 0) m'.
Proof.
  apply (answer_is_next_start (mkSchedule [0] 8 0 11 0) (mkDatetime 0 12 0)).
  - unfold datetime_wf; simpl; lia.
  - unfold start_minutes; simpl; lia.
  - unfold active_at, start_minutes, end_minutes, current_minutes; simpl. lia.
  - reflexivity.
Defined.

(** X3 (never): for a window that starts within the day, the calculator
    returns [inf] exactly when no window of the schedule ever starts from
    [now] on, whatever numbers the days list holds. *)
Theorem inf_iff_no_start_ever (schedule : CleaningSchedule) (now : datetime) :
  datetime_wf now ->
  0 <= start_minutes schedule < 24 * 60 ->
  hours_until_next_cleaning schedule now = Inf <->
  forall m, 0 <= m -> ~ starts_at schedule now m.
Proof.
  intros (Hwd & Hh & Hm) Hst.
  assert (0 <= current_minutes now < 24 * 60) as Hcur
    by (unfold current_minutes; lia).
  assert ((weekday now + 0) mod 7 = weekday now) as Htoday
    by (rewrite Z.add_0_r; apply Z.mod_small; lia).
  assert (forall k, 1 <= k <= 7 -> (weekday now + k) mod 7 ∈ days schedule ->
            exists m, 0 <= m /\ starts_at schedule now m) as Hstart.
  { intros k Hk Hin.
    exists (k * 24 * 60 + start_minutes schedule - current_minutes now).
    split; [lia |]. unfold starts_at.
    replace (current_minutes now +
             (k * 24 * 60 + start_minutes schedule - current_minutes now))
      with (start_minutes schedule + k * (24 * 60)) by lia.
    rewrite Z.div_add, Z.div_small, Z.mod_add by lia.
    split; [done | apply Z.mod_small; lia]. }
  assert (weekday now ∈ days schedule ->
          exists m, 0 <= m /\ starts_at schedule now m) as Hweek.
  { intros Hday. apply (Hstart 7); [lia |].
    by rewrite Z.add_mod, Z.mod_same, Z.add_0_r, Z.mod_mod, Z.mod_small by lia. }
  destruct (hours_outcome schedule now Hwd)
    as [((Hday & _) & Heq) | [(Hday & Hlt & Heq)
       | (Hpast & [(Heq & Hmiss) | (k & Hk & Hin & Hmin & Heq)])]];
    rewrite Heq; split; try done.
  - intros Hnone. destruct (Hweek Hday) as (m & Hm0 & Hm1). by destruct (Hnone m).
  - intros Hnone. destruct (Hweek Hday) as (m & Hm0 & Hm1). by destruct (Hnone m).
  - intros _ m Hm0 (Hday & _).
    set (j := (current_minutes now + m) / (24 * 60)) in *.
    assert (0 <= j) as Hj by (apply Z.div_pos; lia).
    apply (Hmiss ((j - 1) mod 7 + 1)).
    + pose proof (Z.mod_pos_bound (j - 1) 7). lia.
    + replace ((weekday now + ((j - 1) mod 7 + 1)) mod 7)
        with ((weekday now + j) mod 7); [done |].
      Z.div_mod_to_equations. lia.
  - intros Hnone. destruct (Hstart k Hk Hin) as (m & Hm0 & Hm1).
    by destruct (Hnone m).
Qed.

Lemma inf_iff_no_start_ever_witness :
  hours_until_next_cleaning (mkSchedule [9] 8 0 11 0) (mkDatetime 2 12 0) = Inf
  <-> forall m, 0 <= m -> ~ starts_at (mkSchedule [9] 8 0 11 0) (mkDatetime 2 12 0) m.
Proof.
  apply inf_iff_no_start_ever.
  - unfold datetime_wf; simpl; lia.
  - unfold start_minutes; simpl; lia.
Defined.

(** X4 (days are a set): the calculator reads the days list only through
    membership, so two lists with the same elements, in any order and with
    any repetition, give the same answer. *)
Theorem days_order_is_irrelevant (days1 days2 : list Z) (sh sm eh em : Z)
    (now : datetime) :
  (forall d, d ∈ days1 <-> d ∈ days2) ->
  hours_until_next_cleaning (mkSchedule days1 sh sm eh em) now =
  hours_until_next_cleaning (mkSchedule days2 sh sm eh em) now.
Proof.
  intros Hsame. unfold hours_until_next_cleaning. cbn [start_hour start_minute
    end_hour end_minute]. generalize (seqZ 0 8).
  induction l as [| k rest IH]; [done |].
  cbn [scan days]. rewrite IH.
  destruct (decide (_ ∉ days1)) as [H1 | H1], (decide (_ ∉ days2)) as [H2 | H2];
    try done; exfalso.
  - apply H2. intros Hin. apply H1. by apply Hsame.
  - apply H1. intros Hin. apply H2. by apply Hsame.
Qed.

Lemma days_order_is_irrelevant_witness :
  hours_until_next_cleaning (mkSchedule [4; 0; 4; 2] 8 0 11 0) (mkDatetime 5 12 0) =
  hours_until_next_cleaning (mkSchedule [0; 2; 4] 8 0 11 0) (mkDatetime 5 12 0).
Proof.
  apply days_order_is_irrelevant.
  intros d. rewrite !elem_of_cons, !elem_of_nil. tauto.
Defined.

(** * More about the parser *)

(** ** Letter case *)

Lemma upper_char_idem c : upper_char (upper_char c) = upper_char c.
Proof.
  assert (forallb (fun c => Ascii.eqb (upper_char (upper_char c)) (upper_char c))
            all_ascii = true) as Hall by (vm_compute; reflexivity).
  apply Ascii.eqb_eq. by apply forall_ascii with (c := c) in Hall.
Qed.

Lemma upper_idem t : upper (upper t) = upper t.
Proof.
  unfold upper. rewrite map_map. apply map_ext. intros c. apply upper_char_idem.
Qed.

Lemma literal_eqb_upper p c :
  literal_eqb true p (upper_char c) = literal_eqb true p c.
Proof.
  assert (forallb (fun p => forallb
    (fun c => Bool.eqb (literal_eqb true p (upper_char c)) (literal_eqb true p c))
    all_ascii) all_ascii = true) as Hall by (vm_compute; reflexivity).
  apply Bool.eqb_prop. by apply forall_ascii2 with (p := p) (c := c) in Hall.
Qed.

Lemma in_class_upper cl c : in_class cl (upper_char c) = in_class cl c.
Proof.
  assert (forallb (fun c =>
      Bool.eqb (isdigit (upper_char c)) (isdigit c) &&
      Bool.eqb (isspace (upper_char c)) (isspace c) &&
      Bool.eqb (isword (upper_char c)) (isword c))
    all_ascii = true) as Hall by (vm_compute; reflexivity).
  apply forall_ascii with (c := c) in Hall.
  apply andb_prop in Hall as [Hall Hw]. apply andb_prop in Hall as [Hd Hs].
  destruct cl; simpl; by apply Bool.eqb_prop.
Qed.

Lemma literal_upper w : forall (prev : option ascii) t,
  literal true w (upper_char <$> prev) (upper t) =
  prod_map (fmap (M := option) upper_char) upper <$> literal true w prev t.
Proof.
  induction w as [| p w IH]; intros prev t; [done |].
  destruct t as [| c t]; [done |]. cbn [literal upper map].
  rewrite literal_eqb_upper. destruct (literal_eqb true p c); [| done].
  apply (IH (Some c)).
Qed.

Lemma run_upper cl : forall t hi, run cl hi (upper t) = run cl hi t.
Proof.
  induction t as [| c t IH]; intros hi; [done |].
  cbn [run upper map]. rewrite in_class_upper.
  destruct hi as [[| h] |]; try done; destruct (in_class cl c); try done;
    f_equal; apply IH.
Qed.

Lemma advance_upper n : forall (prev : option ascii) t,
  advance n (upper_char <$> prev) (upper t) =
  prod_map (fmap (M := option) upper_char) upper (advance n prev t).
Proof.
  induction n as [| n IH]; intros prev [| c t]; try done.
  apply (IH (Some c)).
Qed.

Lemma word_boundary_upper (prev : option ascii) t :
  word_boundary (upper_char <$> prev) (upper t) = word_boundary prev t.
Proof.
  unfold word_boundary. f_equal.
  - destruct prev as [c |]; [apply (in_class_upper Word) | done].
  - destruct t as [| c t]; [done | apply (in_class_upper Word)].
Qed.

Section UpperSimulation.

Local Abbreviation upcaps := (fmap (M := list) (prod_map (@id nat) upper)).
Local Abbreviation upres :=
  (fmap (M := option) (prod_map upper upcaps)).

(** [k'] does on upper-cased positions what [k] does on the original
    ones. *)
Local Abbreviation follows k' k :=
  (forall (prev : option ascii) (t : text) (caps : captures),
     k' (upper_char <$> prev) (upper t) (upcaps caps) = upres (k prev t caps)).

Lemma give_back_upper (k k' : cont) (prev : option ascii) t caps lo :
  follows k' k ->
  forall extra,
    give_back k' (upper_char <$> prev) (upper t) (upcaps caps) lo extra =
    upres (give_back k prev t caps lo extra).
Proof.
  intros Hk. induction extra as [| extra IH]; cbn [give_back];
    rewrite advance_upper; destruct (advance _ prev t) as [prev' t'];
    cbn [prod_map fst snd]; rewrite Hk; [done |].
  destruct (k prev' t' caps) as [m |]; [done | apply IH].
Qed.

Lemma rmatch_upper r : forall (prev : option ascii) t caps (k k' : cont),
  follows k' k ->
  rmatch true r (upper_char <$> prev) (upper t) (upcaps caps) k' =
  upres (rmatch true r prev t caps k).
Proof.
  induction r as [| u | cl lo hi | r1 IH1 r2 IH2 | r1 IH1 r2 IH2 | n r IH |];
    intros prev t caps k k' Hk; cbn [rmatch].
  - apply Hk.
  - rewrite literal_upper.
    destruct (literal true u prev t) as [[prev' t'] |]; [apply Hk | done].
  - rewrite run_upper. destruct (run cl hi t <? lo)%nat; [done |].
    by apply give_back_upper.
  - apply IH1. intros prev' t' caps'. by apply IH2.
  - rewrite (IH1 _ _ _ k k' Hk).
    destruct (rmatch true r1 prev t caps k) as [m |]; [done |]. by apply IH2.
  - apply IH. intros prev' t' caps'.
    unfold upper at 2 3 4. rewrite !length_map, firstn_map.
    apply (Hk prev' t' ((n, take (length t - length t') t) :: caps')).
  - rewrite word_boundary_upper. destruct (word_boundary prev t); [apply Hk | done].
Qed.

Lemma search_from_upper r : forall t (prev : option ascii),
  search_from true r (upper_char <$> prev) (upper t) =
  upcaps <$> search_from true r prev t.
Proof.
  assert (forall t (prev : option ascii),
    match_at true r (upper_char <$> prev) (upper t) =
    prod_map id upcaps <$> match_at true r prev t) as Hat.
  { intros t prev. unfold match_at.
    pose proof (rmatch_upper r prev t [] (fun _ t' caps => Some (t', caps))
                  (fun _ t' caps => Some (t', caps))) as Hr.
    change (upcaps []) with ([] : captures) in Hr. rewrite Hr by done.
    destruct (rmatch true r prev t [] _) as [[t' caps] |]; [| done].
    cbn. unfold upper. by rewrite !length_map. }
  induction t as [| c t IH]; intros prev; cbn [search_from upper map];
    [rewrite (Hat []) | rewrite (Hat (c :: t))];
    destruct (match_at true r prev _) as [[len caps] |]; try done.
  apply (IH (Some c)).
Qed.

Lemma group_upper n caps : group n (upcaps caps) = upper (group n caps).
Proof.
  induction caps as [| [i w] caps IH]; [done |].
  cbn. destruct (Nat.eqb i n); [done | apply IH].
Qed.

Lemma search_upper r t :
  search true r (upper t) = upcaps <$> search true r t.
Proof. apply (search_from_upper r t None). Qed.

End UpperSimulation.

Lemma parse_time_upper t : _parse_time (upper t) = _parse_time t.
Proof. unfold _parse_time. by rewrite upper_idem. Qed.

Lemma parse_upper desc :
  parse_sign_description (upper desc) = parse_sign_description desc.
Proof.
  unfold parse_sign_description. rewrite upper_idem, search_upper.
  destruct (negb _); [done |]. case_decide; [done |].
  match goal with
  | |- ?m ≫= _ = ?m ≫= _ => destruct m as [days | e]; [| done]
  end.
  cbn [mbind result_bind].
  destruct (search true TIME_RE desc) as [time_match |]; [| done].
  cbn [fmap option_fmap option_map].
  by rewrite !group_upper, !parse_time_upper.
Qed.

(** X5 (letter case): the parser is case-insensitive; two descriptions that
    are equal after [upper()] give the same outcome. *)
Theorem parse_ignores_case (desc1 desc2 : text) :
  upper desc1 = upper desc2 ->
  parse_sign_description desc1 = parse_sign_description desc2.
Proof.
  intros Heq. by rewrite <- (parse_upper desc1), <- (parse_upper desc2), Heq.
Qed.

Lemma parse_ignores_case_witness :
  parse_sign_description (str "Sanitation Broom Symbol monday except Friday 8:30am-10Am") =
  parse_sign_description (str "SANITATION BROOM SYMBOL MONDAY EXCEPT FRIDAY 8:30AM-10AM").
Proof. apply parse_ignores_case. vm_compute. reflexivity. Defined.

(** ** Substrings *)

Lemma char_eqb_eq a b : char_eqb a b = true <-> a = b.
Proof.
  unfold char_eqb, code. rewrite N.eqb_eq. split; [| by intros ->].
  intros Hab. by rewrite <- (ascii_N_embedding a), <- (ascii_N_embedding b), Hab.
Qed.

Lemma startswith_spec prefix : forall t,
  startswith prefix t = true <-> exists rest, t = prefix ++ rest.
Proof.
  induction prefix as [| p prefix IH]; intros t.
  - split; [by exists t | done].
  - destruct t as [| c t]; [split; [done | by intros (rest & ?)] |].
    cbn [startswith]. rewrite andb_true_iff, char_eqb_eq, IH. split.
    + intros (-> & rest & ->). by exists rest.
    + intros (rest & [= -> ->]). split; [done | by exists rest].
Qed.

Lemma contains_spec sub : forall t,
  contains sub t = true <-> exists before after, t = before ++ sub ++ after.
Proof.
  induction t as [| c t IH]; cbn [contains]; rewrite orb_true_iff, startswith_spec.
  - split.
    + intros [(rest & Hrest) | Hf]; [| done]. by exists [], rest.
    + intros (before & after & Hsplit). left.
      destruct before as [| b before]; [by exists after | done].
  - rewrite IH. split.
    + intros [(rest & ->) | (before & after & ->)]; [by exists [], rest |].
      by exists (c :: before), after.
    + intros (before & after & Hsplit).
      destruct before as [| b before]; [left; by exists after |].
      injection Hsplit as -> ->. right. by exists before, after.
Qed.

(** X6 (exceptions win): when the upper-cased description contains
    "EXCEPT " followed by a weekday name, the schedule returned never
    includes that weekday, whether or not the name also stands elsewhere. *)
Theorem excepted_day_is_left_out (desc before after day_name : text) (n : Z)
    (s : CleaningSchedule) :
  (day_name, n) ∈ DAYS_OF_WEEK ->
  upper desc = before ++ (str "EXCEPT " ++ day_name) ++ after ->
  parse_sign_description desc = Ok (Some s) ->
  n ∉ days s.
Proof.
  intros Hname Hsplit Hs.
  destruct (rejection_of desc) as [reason |] eqn:Hrej.
  { apply parse_rejects in Hrej. congruence. }
  apply parse_accepts in Hrej
    as (nums & tm & H1 & M1 & pm1 & H2 & M2 & pm2 & _ & _ & _ & _ & Heq).
  match type of Heq with
  | _ = Ok (Some ?parsed) => assert (s = parsed) as -> by congruence
  end.
  cbn [days]. rewrite elem_of_sorted, elem_of_difference. intros [_ Hout].
  apply Hout, elem_of_except_days. exists day_name. split; [done |].
  apply contains_spec. by exists before, after.
Qed.

Lemma excepted_day_is_left_out_witness :
  1 ∉ days (mkSchedule [0; 2] 9 0 10 0).
Proof.
  apply (excepted_day_is_left_out
           (str "Sanitation broom symbol Monday Tuesday Wednesday except Tuesday 9am-10am")
           (str "SANITATION BROOM SYMBOL MONDAY TUESDAY WEDNESDAY ")
           (str " 9AM-10AM") (str "TUESDAY") 1).
  - vm_compute. right. left.
  - vm_compute. reflexivity.
  - vm_compute. reflexivity.
Defined.

(** X7 (sane tokens give times of day): a token whose hour reads 1..12
    and whose minute reads 0..59 converts to an hour in 0..23 with that
    minute; AM tokens land in 0..11 and PM tokens in 12..23. *)
Theorem clock_token_gives_time_of_day (t : text) (H M : Z) (pm : bool) :
  time_token t H M pm ->
  1 <= H <= 12 -> 0 <= M <= 59 ->
  exists h, _parse_time t = Ok (h, M) /\
    0 <= h <= 23 /\ (if pm then 12 <= h else h <= 11).
Proof.
  intros Htok HH HM. exists (twelve_hour_rule H pm).
  split; [by apply parse_time_of_token |].
  unfold twelve_hour_rule. destruct pm, (Z.eqb_spec H 12); lia.
Qed.

Lemma clock_token_gives_time_of_day_witness :
  exists h, _parse_time (str "6:45Pm") = Ok (h, 45) /\
    0 <= h <= 23 /\ 12 <= h.
Proof.
  apply (clock_token_gives_time_of_day (str "6:45Pm") 6 45 true); [| lia | lia].
  apply (time_token_intro (str "6") (str ":45") (str "Pm") 6 45 true).
  - apply (hour_one 6); lia.
  - apply (minute_two 4 5); lia.
  - apply meridiem_pm. vm_compute. right. left.
Defined.

(** ** The matcher finds what the pattern can match *)

Lemma literal_complete ic u : forall w prev rest,
  Forall2 (fun p c => literal_eqb ic p c = true) u w ->
  exists prev', literal ic u prev (w ++ rest) = Some (prev', rest).
Proof.
  induction u as [| p u IH]; intros w prev rest Hw.
  - apply Forall2_nil_inv_l in Hw as ->. by exists prev.
  - apply Forall2_cons_inv_l in Hw as (c & w' & Hc & Hw & ->).
    cbn [literal app]. rewrite Hc. apply IH, Hw.
Qed.

Lemma run_covers cl : forall w rest hi,
  Forall (fun c => in_class cl c = true) w ->
  from_option (fun h => (length w <= h)%nat) True hi ->
  (length w <= run cl hi (w ++ rest))%nat.
Proof.
  induction w as [| c w IH]; intros rest hi Hw Hhi; [simpl; lia |].
  apply Forall_cons in Hw as [Hc Hw]. cbn [run app length] in *.
  destruct hi as [[| h] |]; cbn in Hhi; [lia | |]; rewrite Hc;
    apply le_n_S, IH; try done; cbn; lia.
Qed.

Lemma give_back_complete (k : cont) prev t caps lo : forall extra n,
  (lo <= n <= lo + extra)%nat ->
  is_Some (let '(prev', t') := advance n prev t in k prev' t' caps) ->
  is_Some (give_back k prev t caps lo extra).
Proof.
  induction extra as [| extra IH]; intros n Hn Hk; cbn [give_back].
  - by replace lo with n by lia.
  - destruct (advance (lo + S extra) prev t) as [prev' t'] eqn:Hadv.
    destruct (k prev' t' caps) as [m |] eqn:Hm; [done |].
    apply (IH n); [| done].
    destruct (decide (n = (lo + S extra)%nat)) as [-> | Hne]; [| lia].
    rewrite Hadv, Hm in Hk. by destruct Hk.
Qed.

Lemma rmatch_complete ic r : forall w caps caps',
  boundary_free r = true ->
  matches ic r w caps caps' ->
  forall prev rest (k : cont),
    (forall prev', is_Some (k prev' rest caps')) ->
    is_Some (rmatch ic r prev (w ++ rest) caps k).
Proof.
  induction r as [| u | cl lo hi | r1 IH1 r2 IH2 | r1 IH1 r2 IH2 | n r IH |];
    intros w caps caps' Hfree Hm prev rest k Hk; cbn [rmatch matches] in *.
  - destruct Hm as (-> & ->). apply Hk.
  - destruct Hm as (Hw & ->).
    destruct (literal_complete ic u w prev rest Hw) as (prev' & ->). apply Hk.
  - destruct Hm as ((Hw & Hlo & Hhi) & ->).
    pose proof (run_covers cl w rest hi Hw Hhi) as Hrun.
    destruct (Nat.ltb_spec (run cl hi (w ++ rest)) lo) as [Hlt | Hge]; [lia |].
    apply (give_back_complete k prev (w ++ rest) caps lo _ (length w)); [lia |].
    destruct (advance (length w) prev (w ++ rest)) as [prev' t'] eqn:Hadv.
    pose proof (advance_drop (length w) prev (w ++ rest)) as Hdrop.
    rewrite Hadv, drop_app_length in Hdrop. cbn in Hdrop. subst t'. apply Hk.
  - apply andb_prop in Hfree as [Hfree1 Hfree2].
    destruct Hm as (w1 & w2 & caps1 & -> & Hm1 & Hm2).
    rewrite <- app_assoc. apply (IH1 w1 caps caps1 Hfree1 Hm1).
    intros prev'. by apply (IH2 w2 caps1 caps').
  - apply andb_prop in Hfree as [Hfree1 Hfree2].
    destruct (rmatch ic r1 prev (w ++ rest) caps k) as [m |] eqn:Hfirst; [done |].
    destruct Hm as [Hm | Hm].
    + pose proof (IH1 w caps caps' Hfree1 Hm prev rest k Hk) as Hsome.
      rewrite Hfirst in Hsome. by destruct Hsome.
    + by apply (IH2 w caps caps').
  - destruct Hm as (caps1 & Hm & ->).
    apply (IH w caps caps1 Hfree Hm). intros prev'.
    rewrite length_app, Nat.add_sub, take_app_length. apply Hk.
  - done.
Qed.

Lemma search_from_complete ic r w caps' : forall before prev rest,
  boundary_free r = true ->
  matches ic r w [] caps' ->
  is_Some (search_from ic r prev (before ++ w ++ rest)).
Proof.
  intros before prev rest Hfree Hm.
  assert (forall prev, is_Some (match_at ic r prev (w ++ rest))) as Hat.
  { intros p. unfold match_at.
    destruct (rmatch_complete ic r w [] caps' Hfree Hm p rest
                (fun _ t' caps => Some (t', caps))) as ([t' caps] & ->); [by eexists |].
    by eexists. }
  revert prev. induction before as [| c before IH]; intros prev.
  - cbn [app]. destruct (Hat prev) as ([len caps] & Hsome).
    destruct (w ++ rest); cbn [search_from]; by rewrite Hsome.
  - cbn [app search_from].
    destruct (match_at ic r prev _) as [[len caps] |]; [done | apply IH].
Qed.

Lemma isdigit_digit_char_true a : 0 <= a < 10 -> isdigit (digit_char a) = true.
Proof.
  intros Ha.
  assert (a = 0 \/ a = 1 \/ a = 2 \/ a = 3 \/ a = 4 \/ a = 5 \/ a = 6 \/
          a = 7 \/ a = 8 \/ a = 9) as Hcases by lia.
  repeat destruct Hcases as [-> | Hcases]; try subst a; reflexivity.
Qed.

Lemma time_token_matches t H M pm caps :
  time_token t H M pm -> matches true TIME_TOKEN t caps caps.
Proof.
  intros [hd md sfx H' M' pm' Hh Hm Hs].
  unfold TIME_TOKEN, Opt. cbn [matches].
  exists hd, (md ++ sfx), caps. split; [done |]. split.
  { split; [| done].
    destruct Hh as [a Ha | a b Ha Hb]; cbn; repeat split; try lia;
      repeat constructor; by apply isdigit_digit_char_true. }
  exists md, sfx, caps. split; [done |]. split.
  - destruct Hm as [| a b Ha Hb]; [by right |]. left.
    exists [":"%char], [digit_char a; digit_char b], caps.
    split; [done |]. split; [split; [by repeat constructor | done] |].
    split; [| done]. cbn. repeat split; try lia.
    repeat constructor; by apply isdigit_digit_char_true.
  - destruct Hs as [sfx' Hin | sfx' Hin]; [left | right]; (split; [| done]);
      cbn in Hin; rewrite !elem_of_cons, elem_of_nil in Hin;
      destruct Hin as [-> | [-> | [-> | [-> | []]]]]; by repeat constructor.
Qed.

Lemma range_matches tok1 gap1 gap2 tok2 H1 M1 pm1 H2 M2 pm2 :
  time_token tok1 H1 M1 pm1 -> time_token tok2 H2 M2 pm2 ->
  Forall (fun c => isspace c = true) gap1 ->
  Forall (fun c => isspace c = true) gap2 ->
  matches true TIME_RE (tok1 ++ gap1 ++ str "-" ++ gap2 ++ tok2) []
          [(2%nat, tok2); (1%nat, tok1)].
Proof.
  intros Htok1 Htok2 Hgap1 Hgap2. unfold TIME_RE. cbn [matches].
  exists tok1, (gap1 ++ str "-" ++ gap2 ++ tok2), [(1%nat, tok1)].
  split; [done |]. split.
  { exists []. split; [by eapply time_token_matches | done]. }
  exists gap1, (str "-" ++ gap2 ++ tok2), [(1%nat, tok1)].
  split; [done |]. split; [cbn; repeat split; try done; lia |].
  exists (str "-"), (gap2 ++ tok2), [(1%nat, tok1)].
  split; [done |]. split; [split; [by repeat constructor | done] |].
  exists gap2, tok2, [(1%nat, tok1)].
  split; [done |]. split; [cbn; repeat split; try done; lia |].
  exists [(1%nat, tok1)]. split; [by eapply time_token_matches | done].
Qed.

(** X8 (a range is never overlooked): a description that holds, anywhere,
    two time tokens joined by a hyphen with optional blanks around it has a
    time range for [TIME_RE.search]; if it is an ASCII description that
    also passes the gate and has day information, the parser returns a
    schedule. *)
Theorem written_range_is_found (desc before tok1 gap1 gap2 tok2 after : text)
    (H1 M1 H2 M2 : Z) (pm1 pm2 : bool) :
  desc = before ++ (tok1 ++ gap1 ++ str "-" ++ gap2 ++ tok2) ++ after ->
  time_token tok1 H1 M1 pm1 -> time_token tok2 H2 M2 pm2 ->
  Forall (fun c => isspace c = true) gap1 ->
  Forall (fun c => isspace c = true) gap2 ->
  is_Some (search true TIME_RE desc) /\
  (isascii desc = true ->
   contains (str "SANITATION BROOM SYMBOL") (upper desc) = true ->
   day_matches_of (upper desc) <> [] \/ except_days_of (upper desc) <> ∅ ->
   exists s, parse_sign_description desc = Ok (Some s)).
Proof.
  intros -> Htok1 Htok2 Hgap1 Hgap2.
  assert (is_Some (search true TIME_RE
            (before ++ (tok1 ++ gap1 ++ str "-" ++ gap2 ++ tok2) ++ after)))
    as Hfound.
  { eapply search_from_complete; [done |]. by eapply range_matches. }
  split; [done |]. intros _ Hgate Hdays.
  assert (rejection_of (before ++ (tok1 ++ gap1 ++ str "-" ++ gap2 ++ tok2) ++ after)
          = None) as Hrej.
  { unfold rejection_of. rewrite Hgate. cbn [negb].
    rewrite decide_False by (intros [? ?]; by destruct Hdays).
    destruct Hfound as (m & Hm). rewrite decide_False; [done | by rewrite Hm]. }
  apply parse_accepts in Hrej
    as (nums & tm & ? & ? & ? & ? & ? & ? & _ & _ & _ & _ & Heq).
  by eexists.
Qed.

Lemma written_range_is_found_witness :
  is_Some (search true TIME_RE
             (str "SANITATION BROOM SYMBOL 9-5 FRIDAY 8:30am - 10AM daily")) /\
  (isascii (str "SANITATION BROOM SYMBOL 9-5 FRIDAY 8:30am - 10AM daily") = true ->
   contains (str "SANITATION BROOM SYMBOL")
     (upper (str "SANITATION BROOM SYMBOL 9-5 FRIDAY 8:30am - 10AM daily")) = true ->
   day_matches_of (upper (str "SANITATION BROOM SYMBOL 9-5 FRIDAY 8:30am - 10AM daily"))
     <> [] \/
   except_days_of (upper (str "SANITATION BROOM SYMBOL 9-5 FRIDAY 8:30am - 10AM daily"))
     <> ∅ ->
   exists s,
     parse_sign_description
       (str "SANITATION BROOM SYMBOL 9-5 FRIDAY 8:30am - 10AM daily") = Ok (Some s)).
Proof.
  apply (written_range_is_found _
           (str "SANITATION BROOM SYMBOL 9-5 FRIDAY ")
           (str "8:30am") (str " ") (str " ") (str "10AM") (str " daily")
           8 30 10 0 false false).
  - reflexivity.
  - apply (time_token_intro (str "8") (str ":30") (str "am") 8 30 false).
    + apply (hour_one 8); lia.
    + apply (minute_two 3 0); lia.
    + apply meridiem_am. vm_compute. do 3 right. left.
  - apply (time_token_intro (str "10") [] (str "AM") 10 0 false).
    + apply (hour_two 1 0); lia.
    + apply minute_absent.
    + apply meridiem_am. vm_compute. left.
  - by repeat constructor.
  - by repeat constructor.
Defined.

(** ** The first range is the one used *)

Lemma match_at_prefix ic r prev t len caps :
  match_at ic r prev t = Some (len, caps) ->
  exists w rest, t = w ++ rest /\ matches ic r w [] caps.
Proof.
  unfold match_at. intros Hm.
  destruct (rmatch _ _ _ _ _ _) as [[t' caps'] |] eqn:Hr; [| discriminate].
  injection Hm as _ <-.
  apply rmatch_sound in Hr as (w & _ & t'' & caps'' & -> & Hw & Hk).
  injection Hk as _ <-. by exists w, t''.
Qed.

Lemma token_length_spec t H M pm rest :
  time_token t H M pm -> length t = token_length (t ++ rest).
Proof.
  intros [hd md sfx H' M' pm' Hh Hm Hs].
  assert (exists x y, sfx = [x; y] /\ isdigit x = false /\ x <> ":"%char)
    as (x & y & -> & Hx & Hcolon).
  { destruct Hs as [sfx' Hin | sfx' Hin]; cbn in Hin;
      rewrite !elem_of_cons, elem_of_nil in Hin;
      destruct Hin as [-> | [-> | [-> | [-> | []]]]]; by eexists _, _. }
  unfold token_length.
  destruct Hh as [a Ha | a b Ha Hb], Hm as [| c d Hc Hd]; cbn;
    rewrite ?Hx, ?isdigit_digit_char_true by done; cbn;
    try done; case_decide; (congruence || done).
Qed.

Lemma token_prefix_unique t1 t2 rest1 rest2 H1 M1 pm1 H2 M2 pm2 :
  time_token t1 H1 M1 pm1 -> time_token t2 H2 M2 pm2 ->
  t1 ++ rest1 = t2 ++ rest2 -> t1 = t2 /\ rest1 = rest2.
Proof.
  intros Htok1 Htok2 Heq. apply app_inj_1; [| done].
  rewrite (token_length_spec _ _ _ _ rest1 Htok1),
    (token_length_spec _ _ _ _ rest2 Htok2). by rewrite Heq.
Qed.

Lemma blanks_prefix_unique gap1 gap2 c1 c2 rest1 rest2 :
  Forall (fun c => isspace c = true) gap1 ->
  Forall (fun c => isspace c = true) gap2 ->
  isspace c1 = false -> isspace c2 = false ->
  gap1 ++ c1 :: rest1 = gap2 ++ c2 :: rest2 ->
  gap1 = gap2 /\ c1 :: rest1 = c2 :: rest2.
Proof.
  intros Hgap1. revert gap2.
  induction Hgap1 as [| a gap1 Ha Hgap1 IH]; intros gap2 Hgap2 Hc1 Hc2 Heq.
  - destruct Hgap2 as [| b gap2 Hb Hgap2]; [done |].
    injection Heq as -> _. congruence.
  - destruct Hgap2 as [| b gap2 Hb Hgap2].
    + injection Heq as <- _. congruence.
    + injection Heq as -> Heq.
      destruct (IH gap2 Hgap2 Hc1 Hc2 Heq) as [-> Hrest]. done.
Qed.

Lemma time_token_starts_with_digit t H M pm :
  time_token t H M pm ->
  exists c t', t = c :: t' /\ isdigit c = true /\ isspace c = false.
Proof.
  intros [hd md sfx H' M' pm' Hh _ _].
  assert (forall a, 0 <= a < 10 -> isspace (digit_char a) = false) as Hblank.
  { intros a Ha.
    assert (a = 0 \/ a = 1 \/ a = 2 \/ a = 3 \/ a = 4 \/ a = 5 \/ a = 6 \/
            a = 7 \/ a = 8 \/ a = 9) as Hcases by lia.
    repeat destruct Hcases as [-> | Hcases]; try subst a; reflexivity. }
  destruct Hh as [a Ha | a b Ha Hb]; eexists _, _;
    (split; [reflexivity |]); split; auto using isdigit_digit_char_true.
Qed.

(** What a match of [TIME_RE] is made of. *)
Lemma TIME_RE_matches_parts w caps :
  matches true TIME_RE w [] caps ->
  exists g1 s1 s2 g2 H1 M1 pm1 H2 M2 pm2,
    w = g1 ++ s1 ++ "-"%char :: s2 ++ g2 /\
    caps = [(2%nat, g2); (1%nat, g1)] /\
    time_token g1 H1 M1 pm1 /\ time_token g2 H2 M2 pm2 /\
    Forall (fun c => isspace c = true) s1 /\
    Forall (fun c => isspace c = true) s2.
Proof.
  unfold TIME_RE. cbn [matches].
  intros (g1 & wa & c1 & -> & (c0 & Htok1 & ->) &
          (s1 & wb & c2 & -> & ((Hs1 & _) & ->) &
           (hy & wc & c3 & -> & (Hhy & ->) &
            (s2 & g2 & c4 & -> & ((Hs2 & _) & ->) & (c5 & Htok2 & ->))))).
  apply TIME_TOKEN_matches in Htok1 as (-> & H1 & M1 & pm1 & Htok1).
  apply TIME_TOKEN_matches in Htok2 as (-> & H2 & M2 & pm2 & Htok2).
  apply Forall2_cons_inv_l in Hhy as (c & hy' & Hc & Hnil & ->).
  apply Forall2_nil_inv_l in Hnil as ->.
  assert (c = "-"%char) as ->
    by (by destruct (literal_ic_cases _ _ Hc) as [-> | [-> | ->]]).
  by exists g1, s1, s2, g2, H1, M1, pm1, H2, M2, pm2.
Qed.

Lemma search_from_past_non_digits : forall before prev t,
  Forall (fun c => isdigit c = false) before ->
  exists prev', search_from true TIME_RE prev (before ++ t) =
                search_from true TIME_RE prev' t.
Proof.
  induction before as [| c before IH]; intros prev t Hnd; [by exists prev |].
  apply Forall_cons in Hnd as [Hc Hnd]. cbn [app search_from].
  destruct (match_at true TIME_RE prev (c :: before ++ t)) as [[len caps] |] eqn:Hm.
  - exfalso. apply match_at_prefix in Hm as (w & rest & Heq & Hw).
    apply TIME_RE_matches_parts in Hw
      as (g1 & s1 & s2 & g2 & H1 & M1 & pm1 & ? & ? & ? & -> & _ & Htok1 & _).
    apply time_token_starts_with_digit in Htok1 as (d & g1' & -> & Hd & _).
    injection Heq as -> _. congruence.
  - apply IH, Hnd.
Qed.

(** X9 (the first range is the one used): when no digit stands before a
    written range, [TIME_RE.search] captures exactly its two tokens,
    whatever follows it, further ranges included; the schedule returned
    then carries the two tokens converted by the 12-hour rule. *)
Theorem first_range_is_used (desc before tok1 gap1 gap2 tok2 after : text)
    (H1 M1 H2 M2 : Z) (pm1 pm2 : bool) :
  desc = before ++ (tok1 ++ gap1 ++ str "-" ++ gap2 ++ tok2) ++ after ->
  Forall (fun c => isdigit c = false) before ->
  time_token tok1 H1 M1 pm1 -> time_token tok2 H2 M2 pm2 ->
  Forall (fun c => isspace c = true) gap1 ->
  Forall (fun c => isspace c = true) gap2 ->
  (exists time_match,
     search true TIME_RE desc = Some time_match /\
     group 1 time_match = tok1 /\ group 2 time_match = tok2) /\
  forall s, parse_sign_description desc = Ok (Some s) ->
    start_hour s = twelve_hour_rule H1 pm1 /\ start_minute s = M1 /\
    end_hour s = twelve_hour_rule H2 pm2 /\ end_minute s = M2.
Proof.
  intros -> Hnd Htok1 Htok2 Hgap1 Hgap2.
  assert (exists time_match,
     search true TIME_RE
       (before ++ (tok1 ++ gap1 ++ str "-" ++ gap2 ++ tok2) ++ after)
       = Some time_match /\
     group 1 time_match = tok1 /\ group 2 time_match = tok2) as Hfirst.
  { unfold search.
    destruct (search_from_past_non_digits before None
                ((tok1 ++ gap1 ++ str "-" ++ gap2 ++ tok2) ++ after) Hnd)
      as (prev' & ->).
    assert (is_Some (match_at true TIME_RE prev'
              ((tok1 ++ gap1 ++ str "-" ++ gap2 ++ tok2) ++ after)))
      as ([len caps] & Hm).
    { unfold match_at.
      destruct (rmatch_complete true TIME_RE _ [] _ eq_refl
                  (range_matches _ _ _ _ _ _ _ _ _ _ Htok1 Htok2 Hgap1 Hgap2)
                  prev' after (fun _ t' caps => Some (t', caps)))
        as ([t' caps] & ->); by eexists. }
    exists caps. split.
    { destruct ((tok1 ++ gap1 ++ str "-" ++ gap2 ++ tok2) ++ after);
        cbn [search_from]; by rewrite Hm. }
    apply match_at_prefix in Hm as (w & rest & Heq & Hw).
    apply TIME_RE_matches_parts in Hw
      as (g1 & s1 & s2 & g2 & ? & ? & ? & ? & ? & ? & -> & -> & Hg1 & Hg2 & Hs1 & Hs2).
    rewrite <- !app_assoc in Heq. cbn [app str list_ascii_of_string] in Heq.
    rewrite <- !app_assoc in Heq. cbn [app] in Heq.
    destruct (token_prefix_unique _ _ _ _ _ _ _ _ _ _ Htok1 Hg1 Heq) as [<- Heq1].
    destruct (blanks_prefix_unique gap1 s1 "-"%char "-"%char _ _
                Hgap1 Hs1 eq_refl eq_refl Heq1) as [<- [= Heq2]].
    destruct (time_token_starts_with_digit _ _ _ _ Htok2) as (d & tok2' & -> & _ & Hd).
    destruct (time_token_starts_with_digit _ _ _ _ Hg2) as (e & g2' & -> & _ & He).
    cbn [app] in Heq2.
    destruct (blanks_prefix_unique _ _ _ _ _ _ Hgap2 Hs2 Hd He Heq2) as [<- Heq3].
    change (d :: tok2' ++ after) with ((d :: tok2') ++ after) in Heq3.
    change (e :: g2' ++ rest) with ((e :: g2') ++ rest) in Heq3.
    destruct (token_prefix_unique _ _ _ _ _ _ _ _ _ _ Htok2 Hg2 Heq3) as [<- _].
    done. }
  split; [done |]. intros s Hs.
  destruct Hfirst as (time_match & Hsearch & Hg1 & Hg2).
  match type of Hs with
  | parse_sign_description ?d = _ =>
    destruct (rejection_of d) as [reason |] eqn:Hrej
  end.
  { apply parse_rejects in Hrej. congruence. }
  apply parse_accepts in Hrej
    as (nums & tm & H1' & M1' & pm1' & H2' & M2' & pm2' & _ & Hsearch' & Ht1 & Ht2 & Heq).
  assert (tm = time_match) as -> by congruence.
  rewrite Hg1 in Ht1. rewrite Hg2 in Ht2.
  pose proof (parse_time_of_token _ _ _ _ Ht1) as Hp1.
  pose proof (parse_time_of_token _ _ _ _ Ht2) as Hp2.
  rewrite (parse_time_of_token _ _ _ _ Htok1) in Hp1.
  rewrite (parse_time_of_token _ _ _ _ Htok2) in Hp2.
  injection Hp1 as Hh1 Hm1. injection Hp2 as Hh2 Hm2.
  match type of Heq with
  | _ = Ok (Some ?parsed) => assert (s = parsed) as -> by congruence
  end.
  cbn [start_hour start_minute end_hour end_minute]. by rewrite Hh1, Hm1, Hh2, Hm2.
Qed.

Lemma first_range_is_used_witness :
  (exists time_match,
     search true TIME_RE
       (str "SANITATION BROOM SYMBOL MONDAY 8AM -11:30am AND 1PM-2PM") = Some time_match /\
     group 1 time_match = str "8AM" /\ group 2 time_match = str "11:30am") /\
  forall s,
    parse_sign_description
      (str "SANITATION BROOM SYMBOL MONDAY 8AM -11:30am AND 1PM-2PM") = Ok (Some s) ->
    start_hour s = twelve_hour_rule 8 false /\ start_minute s = 0 /\
    end_hour s = twelve_hour_rule 11 false /\ end_minute s = 30.
Proof.
  apply (first_range_is_used _
           (str "SANITATION BROOM SYMBOL MONDAY ")
           (str "8AM") (str " ") [] (str "11:30am") (str " AND 1PM-2PM")
           8 0 11 30 false false).
  - reflexivity.
  - vm_compute. repeat constructor.
  - apply (time_token_intro (str "8") [] (str "AM") 8 0 false).
    + apply (hour_one 8); lia.
    + apply minute_absent.
    + apply meridiem_am. vm_compute. left.
  - apply (time_token_intro (str "11") (str ":30") (str "am") 11 30 false).
    + apply (hour_two 1 1); lia.
    + apply (minute_two 3 0); lia.
    + apply meridiem_am. vm_compute. do 3 right. left.
  - by repeat constructor.
  - constructor.
Defined.

(** * Day resolution *)

(** ** Runs of a character class *)






(** ** [EXCEPT_RE] at one position *)

Section ExceptClauses.

Local Abbreviation fin := (fun (_ : option ascii) (t' : text) (caps : captures) =>
                             Some (t', caps)).










End ExceptClauses.







(** ** [DAY_RE] at one position *)








(** ** Weekday names *)








(** ** [DAY_RE.findall] *)



(** ** Whole words *)














(** ** The days of the schedule *)





(** * Parser and calculator together *)

Lemma parsed_schedule_ranges desc s :
  parse_sign_description desc = Ok (Some s) ->
  (forall d, d ∈ days s -> 0 <= d < 7) /\ 0 <= start_minutes s.
Proof.
  intros Hs. destruct (rejection_of desc) as [reason |] eqn:Hrej.
  { apply parse_rejects in Hrej. congruence. }
  apply parse_accepts in Hrej
    as (nums & tm & H1 & M1 & pm1 & H2 & M2 & pm2 & Hrel & _ & Htok1 & _ & Heq).
  match type of Heq with
  | _ = Ok (Some ?parsed) => assert (s = parsed) as -> by congruence
  end.
  split.
  - cbn [days]. intros n Hn. rewrite elem_of_sorted, elem_of_difference in Hn.
    destruct Hn as [Hn _]. case_decide; rewrite elem_of_list_to_set in Hn.
    + apply list_elem_of_lookup in Hn as (i & Hi).
      destruct (Forall2_lookup_r _ _ _ _ _ Hrel Hi) as (d & _ & Hget).
      by apply getitem_range in Hget.
    + by apply elem_of_seqZ in Hn.
  - unfold start_minutes. cbn [start_hour start_minute].
    pose proof (time_token_bounds _ _ _ _ Htok1) as [HH HM].
    unfold twelve_hour_rule. destruct pm1, (H1 =? 12); lia.
Qed.

(** X10 (what the caller can get): on any schedule the parser returns,
    and at any instant, the calculator never answers a negative number,
    and it answers [inf] exactly when the schedule has no day left, that
    is, when every day named was also excepted. *)
Theorem parsed_schedule_answer (desc : text) (s : CleaningSchedule)
    (now : datetime) :
  parse_sign_description desc = Ok (Some s) ->
  datetime_wf now ->
  (hours_until_next_cleaning s now = Inf <-> days s = []) /\
  (forall q, hours_until_next_cleaning s now = Fin q -> (0 <= q)%Q).
Proof.
  intros Hs (Hwd & Hh & Hm).
  destruct (parsed_schedule_ranges desc s Hs) as [Hrange Hst].
  assert (0 <= current_minutes now < 24 * 60) as Hcur
    by (unfold current_minutes; lia).
  destruct (hours_outcome s now Hwd)
    as [((Hday & _) & Heq) | [(Hday & Hlt & Heq)
       | (Hpast & [(Heq & Hmiss) | (k & Hk & Hin & Hmin & Heq)])]];
    rewrite Heq; (split; [split |]); try done.
  - intros Hnil. rewrite Hnil in Hday. by apply not_elem_of_nil in Hday.
  - by intros q [= <-].
  - intros Hnil. rewrite Hnil in Hday. by apply not_elem_of_nil in Hday.
  - intros q [= <-]. apply truediv60_nonneg. lia.
  - intros _. destruct (decide (days s = [])) as [| Hne]; [done |].
    destruct (first_active_offset s now Hwd Hrange Hne) as (k & Hk & Hin & _).
    by destruct (Hmiss k).
  - intros Hnil. rewrite Hnil in Hin. by apply not_elem_of_nil in Hin.
  - intros q [= <-]. apply truediv60_nonneg. lia.
Qed.

Lemma parsed_schedule_answer_witness :
  (hours_until_next_cleaning (mkSchedule [] 8 0 9 0) (mkDatetime 0 7 15) = Inf
   <-> days (mkSchedule [] 8 0 9 0) = []) /\
  (forall q, hours_until_next_cleaning (mkSchedule [] 8 0 9 0) (mkDatetime 0 7 15)
             = Fin q -> (0 <= q)%Q).
Proof.
  apply (parsed_schedule_answer
           (str "SANITATION BROOM SYMBOL MONDAY EXCEPT MONDAY 8AM-9AM")).
  - vm_compute. reflexivity.
  - unfold datetime_wf; simpl; lia.
Defined.

(** * main.py: fetching the signs *)

Section Paging.
Import Main.

Context (get_page : Z -> attempt (list row)).

(** The loop against a server that pages through a fixed list of rows. *)
Lemma fetch_pages_slices (rows : list row) :
  (forall n : nat,
     get_page (Z.of_nat n) = Done (take (Z.to_nat PAGE_SIZE) (drop n rows))) ->
  forall fuel n,
    (length (drop n rows) < fuel)%nat ->
    fetch_pages get_page fuel (Z.of_nat n) (take n rows) = Some (Done rows).
Proof.
  intros Hserver. induction fuel as [| fuel IH]; intros n Hfuel; [lia |].
  cbn [fetch_pages]. rewrite Hserver.
  set (page := take (Z.to_nat PAGE_SIZE) (drop n rows)).
  assert (take n rows ++ page = take (n + Z.to_nat PAGE_SIZE) rows) as Hraw
    by apply take_take_drop.
  case_decide as Hempty.
  - assert (drop n rows = []) as Hdrop.
    { subst page. destruct (drop n rows); [done | discriminate]. }
    rewrite <- (take_drop n rows) at 2. by rewrite Hdrop, app_nil_r.
  - subst page. rewrite length_take, length_drop in *. unfold PAGE_SIZE in *.
    case_decide as Hshort.
    + rewrite Hraw. do 2 f_equal. apply take_ge. lia.
    + rewrite Hraw.
      replace (Z.of_nat n + 50000) with (Z.of_nat (n + Z.to_nat 50000)) by lia.
      apply IH. rewrite length_drop. lia.
Qed.

End Paging.

(** X11 (paging): against a server that pages through a fixed list of
    rows, the request loop ends and has collected every row once, in
    order. *)
Theorem paging_collects_every_row
    (get_page : Z -> Main.attempt (list Main.row)) (rows : list Main.row)
    (fuel : nat) :
  (forall n : nat,
     get_page (Z.of_nat n) =
     Main.Done (take (Z.to_nat Main.PAGE_SIZE) (drop n rows))) ->
  (length rows < fuel)%nat ->
  Main.fetch_pages get_page fuel 0 [] = Some (Main.Done rows).
Proof.
  intros Hserver Hfuel.
  apply (fetch_pages_slices get_page rows Hserver fuel 0%nat). by rewrite drop_0.
Qed.

Lemma paging_collects_every_row_witness :
  Main.fetch_pages
    (fun offset => Main.Done (take (Z.to_nat Main.PAGE_SIZE) (drop (Z.to_nat offset)
       [ {[ "borough"%string := str "Bronx" ]};
         {[ "borough"%string := str "Queens" ]} ])))
    3 0 [] =
  Some (Main.Done [ {[ "borough"%string := str "Bronx" ]};
                    {[ "borough"%string := str "Queens" ]} ]).
Proof.
  apply paging_collects_every_row.
  - intros n. by rewrite Nat2Z.id.
  - simpl. lia.
Defined.

Section KeptSigns.
Import Main.

Context (get_page : Z -> attempt (list row))
        (transform : text -> text -> option (Q * Q)) (elapsed : Q -> Q -> Q).

Lemma sign_of_row_parsed r sign :
  sign_of_row transform r = Done (Some sign) ->
  parse_sign_description (Sign.description sign) = Ok (Some (Sign.schedule sign)).
Proof.
  unfold sign_of_row. intros Hkept.
  destruct (falsy _ || falsy _); [discriminate |].
  destruct (transform _ _) as [[lng lat] |]; [| discriminate].
  destruct (parse_sign_description _) as [[schedule |] | e] eqn:Hparse;
    try discriminate.
  by injection Hkept as <-.
Qed.

Lemma signs_of_rows_parsed raw : forall signs signs',
  Forall (fun s => parse_sign_description (Sign.description s)
                   = Ok (Some (Sign.schedule s))) signs ->
  signs_of_rows transform raw signs = Done signs' ->
  Forall (fun s => parse_sign_description (Sign.description s)
                   = Ok (Some (Sign.schedule s))) signs'.
Proof.
  induction raw as [| r raw IH]; intros signs signs' Hall Hrun; cbn in Hrun.
  - by injection Hrun as <-.
  - destruct (sign_of_row transform r) as [[sign |] | e] eqn:Hrow;
      cbn in Hrun; [| by eapply IH | discriminate].
    eapply IH; [| done]. apply Forall_app. split; [done |].
    constructor; [by eapply sign_of_row_parsed | constructor].
Qed.

Lemma fetch_signs_cached fuel cache now now' signs' cache' :
  _fetch_signs get_page transform elapsed fuel cache now now'
  = Some (Done (signs', cache')) ->
  signs cache' = signs'.
Proof.
  unfold _fetch_signs. destruct (_ && _).
  - by intros [= <- <-].
  - destruct (fetch_pages _ _ _ _) as [[raw | e] |]; try discriminate.
    destruct (signs_of_rows _ _ _) as [kept | e]; cbn; [| discriminate].
    by intros [= <- <-].
Qed.

End KeptSigns.

(** X12 (what is kept): if every cached sign carries the schedule the
    parser returns for its description, so does every sign a call of
    [_fetch_signs] returns and every sign it leaves in the cache; the
    description of each contains the marker. *)
Theorem fetched_signs_are_parsed
    (get_page : Z -> Main.attempt (list Main.row))
    (transform : text -> text -> option (Q * Q)) (elapsed : Q -> Q -> Q)
    (fuel : nat) (cache cache' : Main.CachedData) (now now' : Q)
    (signs' : list Main.Sign.t) :
  (forall s, s ∈ Main.signs cache ->
     parse_sign_description (Main.Sign.description s)
     = Ok (Some (Main.Sign.schedule s))) ->
  Main._fetch_signs get_page transform elapsed fuel cache now now'
  = Some (Main.Done (signs', cache')) ->
  Main.signs cache' = signs' /\
  forall s, s ∈ signs' ->
    parse_sign_description (Main.Sign.description s)
    = Ok (Some (Main.Sign.schedule s)) /\
    contains (str "SANITATION BROOM SYMBOL") (upper (Main.Sign.description s)) = true.
Proof.
  intros Hcache Hfetch.
  split; [by eapply fetch_signs_cached |].
  assert (forall s, s ∈ signs' ->
            parse_sign_description (Main.Sign.description s)
            = Ok (Some (Main.Sign.schedule s))) as Hparsed.
  { unfold Main._fetch_signs in Hfetch. destruct (_ && _).
    - injection Hfetch as <- _. apply Hcache.
    - destruct (Main.fetch_pages _ _ _ _) as [[raw | e] |]; try discriminate.
      destruct (Main.signs_of_rows _ _ _) as [kept | e] eqn:Hkept; cbn in Hfetch;
        [| discriminate].
      injection Hfetch as <- _. apply Forall_forall.
      by eapply signs_of_rows_parsed. }
  intros s Hs. split; [by apply Hparsed |].
  specialize (Hparsed s Hs). unfold parse_sign_description in Hparsed.
  by destruct (contains _ _).
Qed.

(** X13 (the cache answers): once a call has returned a non-empty list of
    signs, any later call made less than [CACHE_TTL] seconds after the time
    stored in the cache returns the same list and leaves the cache as it
    is, whatever the server would answer. *)
Theorem fresh_cache_is_served
    (get_page get_page2 : Z -> Main.attempt (list Main.row))
    (transform transform2 : text -> text -> option (Q * Q))
    (elapsed : Q -> Q -> Q)
    (fuel fuel2 : nat) (cache cache' : Main.CachedData)
    (now now' later later' : Q) (signs' : list Main.Sign.t) :
  Main._fetch_signs get_page transform elapsed fuel cache now now'
  = Some (Main.Done (signs', cache')) ->
  signs' <> [] ->
  (elapsed later (Main.fetched_at cache') < inject_Z Main.CACHE_TTL)%Q ->
  Main._fetch_signs get_page2 transform2 elapsed fuel2 cache' later later'
  = Some (Main.Done (signs', cache')).
Proof.
  intros Hfetch Hne Hfresh.
  apply fetch_signs_cached in Hfetch as Hsigns.
  unfold Main._fetch_signs. rewrite Hsigns.
  rewrite bool_decide_eq_false_2 by done. cbn [negb andb].
  unfold Main.Qlt_bool.
  destruct (Qle_bool _ _) eqn:Hle; [| done].
  apply Qle_bool_iff in Hle. by apply Qle_not_lt in Hle.
Qed.

(** * main.py: grouping the signs into streets *)

(** ** Stable sorting *)

Lemma insert_sorted_Permutation {A} (precedes : A -> A -> bool) x l :
  Main.insert_sorted precedes x l ≡ₚ x :: l.
Proof.
  induction l as [| y l IH]; [done |]. cbn.
  destruct (precedes y x); [| done]. rewrite IH. apply Permutation_swap.
Qed.

Lemma stable_sort_Permutation {A} (precedes : A -> A -> bool) l :
  Main.stable_sort precedes l ≡ₚ l.
Proof.
  induction l as [| x l IH]; [done |]. cbn.
  rewrite insert_sorted_Permutation. by constructor.
Qed.

Section Sorted.
Context {A : Type} (precedes : A -> A -> bool) (R : A -> A -> Prop).
Context (Hbefore : forall x y, precedes y x = true -> R y x).
Context (Hafter : forall x y, precedes y x = false -> R x y).
Context (Htrans : forall x y z, R x y -> R y z -> R x z).

Lemma insert_sorted_sorted x l :
  StronglySorted R l -> StronglySorted R (Main.insert_sorted precedes x l).
Proof using Hbefore Hafter Htrans.
  induction 1 as [| y l Hl IH Hy]; [repeat constructor |]. cbn.
  destruct (precedes y x) eqn:Hyx.
  - constructor; [done |].
    rewrite insert_sorted_Permutation. constructor; [by apply Hbefore | done].
  - constructor; [by constructor |].
    constructor; [by apply Hafter |].
    eapply Forall_impl; [done |]. intros z Hz. eapply Htrans; [| done].
    by apply Hafter.
Qed.

Lemma stable_sort_sorted l : StronglySorted R (Main.stable_sort precedes l).
Proof using Hbefore Hafter Htrans.
  induction l as [| x l IH]; [constructor |]. by apply insert_sorted_sorted.
Qed.

End Sorted.

(** ** The order of coordinates *)

Lemma Qlt_bool_true a b : Main.Qlt_bool a b = true <-> (a < b)%Q.
Proof.
  unfold Main.Qlt_bool. rewrite negb_true_iff, <- not_true_iff_false, Qle_bool_iff.
  split; [apply Qnot_le_lt | apply Qlt_not_le].
Qed.

Lemma Qlt_bool_false a b : Main.Qlt_bool a b = false <-> (b <= a)%Q.
Proof.
  unfold Main.Qlt_bool. by rewrite negb_false_iff, Qle_bool_iff.
Qed.

Lemma coord_lt_false c d :
  Main.coord_lt d c = false <->
  (c.1 < d.1 \/ (c.1 == d.1 /\ c.2 <= d.2))%Q.
Proof.
  unfold Main.coord_lt. destruct (Qeq_bool d.1 c.1) eqn:Heq.
  - apply Qeq_bool_iff in Heq. rewrite Qlt_bool_false. split.
    + intros Hle. right. split; [by symmetry | done].
    + intros [Hlt | [_ Hle]]; [| done]. rewrite Heq in Hlt.
      by apply Qlt_irrefl in Hlt.
  - apply Qeq_bool_neq in Heq. rewrite Qlt_bool_false. split.
    + intros Hle. left. apply Qle_lt_or_eq in Hle as [Hlt | Heq']; [done |].
      by destruct Heq.
    + intros [Hlt | [Heq' _]]; [by apply Qlt_le_weak |].
      destruct Heq. by symmetry.
Qed.

Lemma coord_le_refl c : Main.coord_lt c c = false.
Proof. apply coord_lt_false. right. split; [reflexivity | apply Qle_refl]. Qed.

Lemma coord_le_trans c d e :
  Main.coord_lt d c = false -> Main.coord_lt e d = false ->
  Main.coord_lt e c = false.
Proof.
  rewrite !coord_lt_false. intros [H1 | [H1 H1']] [H2 | [H2 H2']].
  - left. lra.
  - left. lra.
  - left. lra.
  - right. split; lra.
Qed.

Lemma coord_lt_asym c d : Main.coord_lt d c = true -> Main.coord_lt c d = false.
Proof.
  intros Hlt. apply coord_lt_false.
  destruct (Main.coord_lt d c) eqn:Hdc; [| done].
  unfold Main.coord_lt in Hdc. destruct (Qeq_bool d.1 c.1) eqn:Heq.
  - apply Qeq_bool_iff in Heq. apply Qlt_bool_true in Hdc.
    right. split; [done | by apply Qlt_le_weak].
  - apply Qlt_bool_true in Hdc. by left.
Qed.

(** ** The loop over the signs *)

Section Streets.
Import Main.

Context (_haversine_km : Q -> Q -> Q -> Q -> result Q) (round1 : Q -> Q)
        (clock : nat -> datetime) (lat lng radius_km : Q).

Local Abbreviation add := (add_sign _haversine_km round1 clock lat lng radius_km).
Local Abbreviation add_all :=
  (add_signs _haversine_km round1 clock lat lng radius_km).
Local Abbreviation distance :=
  (fun s : Sign.t => _haversine_km lat lng (Sign.lat s) (Sign.lng s)).
Local Abbreviation inside := (within _haversine_km lat lng radius_km).
Local Abbreviation group := (group_of _haversine_km lat lng radius_km).
Local Abbreviation coord_of := (fun s : Sign.t => (Sign.lat s, Sign.lng s)).
Local Abbreviation holds :=
  (segments_of _haversine_km round1 clock lat lng radius_km).

Lemma append_coord_keys key c segments :
  (append_coord key c segments).*1 = segments.*1.
Proof.
  induction segments as [| [k seg] segments IH]; [done |]. cbn.
  case_decide; [done |]. cbn. by rewrite IH.
Qed.

Lemma append_coord_absent key c segments :
  key ∉ segments.*1 -> append_coord key c segments = segments.
Proof.
  induction segments as [| [k seg] segments IH]; [done |]. cbn.
  rewrite not_elem_of_cons. intros [Hne Hout].
  case_decide; [congruence |]. by rewrite IH.
Qed.

Lemma append_coord_lookup key c segments i k seg' :
  NoDup segments.*1 ->
  append_coord key c segments !! i = Some (k, seg') <->
  exists seg, segments !! i = Some (k, seg) /\
    seg' = if decide (k = key) then with_coord c seg else seg.
Proof.
  revert i. induction segments as [| [k0 seg0] segments IH]; intros i Hnd.
  - cbn. split; [done | by intros (seg & ? & _)].
  - cbn in Hnd. apply NoDup_cons in Hnd as [Hout Hnd]. cbn [append_coord].
    destruct (decide (k0 = key)) as [-> | Hkey].
    + destruct i as [| i]; cbn.
      * split.
        -- intros [= <- <-]. exists seg0. by rewrite decide_True.
        -- intros (seg & [= <- <-] & ->). by rewrite decide_True.
      * split.
        -- intros Hi. exists seg'. split; [done |].
           rewrite decide_False; [done |]. intros ->. apply Hout.
           apply list_elem_of_fmap. exists (key, seg'). split; [done |].
           by eapply list_elem_of_lookup_2.
        -- intros (seg & Hi & ->). rewrite decide_False; [done |].
           intros ->. apply Hout.
           apply list_elem_of_fmap. exists (key, seg). split; [done |].
           by eapply list_elem_of_lookup_2.
    + destruct i as [| i]; cbn.
      * split.
        -- intros [= <- <-]. exists seg0. by rewrite decide_False.
        -- intros (seg & [= <- <-] & ->). by rewrite decide_False.
      * by apply IH.
Qed.

Lemma group_snoc key signs s :
  group key (signs ++ [s]) =
  group key signs ++ (if inside s && bool_decide (key_of s = key) then [s] else []).
Proof.
  unfold group_of. rewrite List.filter_app. cbn.
  by destruct (inside s && bool_decide (key_of s = key)).
Qed.

Lemma group_key key signs s : s ∈ group key signs -> inside s = true /\ key_of s = key.
Proof.
  unfold group_of. rewrite list_elem_of_In, List.filter_In, andb_true_iff.
  intros (_ & Hin & Hkey). split; [done |]. by apply bool_decide_eq_true in Hkey.
Qed.

Lemma segments_of_step signs segments segments' s :
  holds signs segments -> add segments s = Done segments' ->
  holds (signs ++ [s]) segments'.
Proof.
  intros (Hnd & Hkeys & Hitems) Hadd. unfold add_sign in Hadd.
  destruct (_haversine_km lat lng (Sign.lat s) (Sign.lng s)) as [dist | e] eqn:Hdist;
    [| discriminate].
  destruct (Qlt_bool radius_km dist) eqn:Hfar.
  { (* too far: the dict and every group stay as they are *)
    injection Hadd as <-.
    assert (forall k, group k (signs ++ [s]) = group k signs) as Hsame.
    { intros k. rewrite group_snoc. unfold within. rewrite Hdist, Hfar. cbn.
      by rewrite app_nil_r. }
    split; [done |]. split.
    - intros k. by rewrite Hsame.
    - intros i k seg Hi. rewrite Hsame. by apply Hitems. }
  assert (inside s = true) as Hin by (unfold within; by rewrite Hdist, Hfar).
  cbv zeta in Hadd. injection Hadd as <-.
  assert (forall k, group k (signs ++ [s]) =
                    group k signs ++ (if decide (key_of s = k) then [s] else []))
    as Hgroup.
  { intros k. rewrite group_snoc, Hin. cbn [andb].
    by destruct (decide (key_of s = k)) as [Hk | Hk];
      [rewrite bool_decide_eq_true_2 | rewrite bool_decide_eq_false_2]. }
  set (key := key_of s) in *.
  set (c := (Sign.lat s, Sign.lng s)).
  destruct (decide (key ∉ segments.*1)) as [Hnew | Hold].
  - (* a new street segment *)
    set (seg0 := Segment.mk _ _ _ _ _ _ _ []).
    assert (group key signs = []) as Hempty.
    { destruct (group key signs) eqn:Hg; [done |].
      exfalso. apply Hnew, Hkeys. by rewrite Hg. }
    assert (NoDup (segments ++ [(key, seg0)]).*1) as Hnd'.
    { rewrite fmap_app. apply NoDup_app. split; [done |].
      split; [| apply NoDup_singleton].
      intros k Hk Hk'. apply list_elem_of_singleton in Hk'. by subst k. }
    split; [by rewrite append_coord_keys |]. split.
    + intros k. rewrite append_coord_keys, fmap_app, elem_of_app, Hkeys, Hgroup.
      cbn. rewrite list_elem_of_singleton. split.
      * intros [Hk | ->]; [by destruct (group k signs) |].
        rewrite decide_True by done. by destruct (group key signs).
      * destruct (decide (key = k)) as [<- | Hne]; [by right |].
        rewrite app_nil_r. by left.
    + intros i k seg Hi.
      apply (append_coord_lookup _ _ _ _ _ _ Hnd') in Hi as (seg1 & Hi & ->).
      apply lookup_app_Some in Hi as [Hi | [Hlen Hi]].
      * assert (k <> key) as Hne.
        { intros ->. apply Hnew. apply list_elem_of_fmap. exists (key, seg1).
          split; [done |]. by eapply list_elem_of_lookup_2. }
        rewrite decide_False by done. rewrite Hgroup, decide_False by done.
        rewrite app_nil_r. by apply Hitems.
      * apply list_lookup_singleton_Some in Hi as [Hi0 [= <- <-]].
        assert (i = length segments) as -> by lia.
        rewrite decide_True by done. rewrite Hgroup, decide_True by done.
        rewrite Hempty. cbn. split; [done |]. split; [done |].
        by exists s, [].
  - (* a street segment seen before *)
    assert (key ∈ segments.*1) as Hseen
      by (destruct (decide (key ∈ segments.*1)); [done | contradiction]).
    split; [by rewrite append_coord_keys |]. split.
    + intros k. rewrite append_coord_keys, Hkeys, Hgroup. split.
      * intros Hk. by destruct (group k signs).
      * destruct (decide (key = k)) as [<- | Hne]; [by intros _; apply Hkeys |].
        by rewrite app_nil_r.
    + intros i k seg Hi.
      apply (append_coord_lookup _ _ _ _ _ _ Hnd) in Hi as (seg1 & Hi & ->).
      destruct (Hitems i k seg1 Hi) as (Hk & Hcoords & s1 & rest & Hg & Hb & Hd & Hh).
      rewrite Hgroup. destruct (decide (k = key)) as [-> | Hne].
      * rewrite !decide_True by done. unfold with_coord.
        cbn [Segment.coords Segment.on_street Segment.from_street
             Segment.to_street Segment.side Segment.borough
             Segment.description Segment.hours_until_cleaning].
        split; [done |]. split; [rewrite Hcoords, fmap_app; reflexivity |].
        exists s1, (rest ++ [s]). by rewrite Hg.
      * rewrite !decide_False by done. rewrite app_nil_r.
        split; [done |]. split; [done |]. by exists s1, rest.
Qed.

Lemma segments_of_start : holds [] [].
Proof.
  split; [constructor |]. split; [| done].
  intros k. cbn. split; [by intros ?%not_elem_of_nil | done].
Qed.

Lemma segments_of_rest signs : forall seen segments segments',
  holds seen segments -> add_all segments signs = Done segments' ->
  holds (seen ++ signs) segments'.
Proof.
  induction signs as [| s signs IH]; intros seen segments segments' Hseen Hrun;
    cbn in Hrun.
  - injection Hrun as <-. by rewrite app_nil_r.
  - destruct (add segments s) as [segments1 | f] eqn:Hadd; cbn in Hrun;
      [| discriminate].
    rewrite cons_middle, app_assoc.
    eapply IH; [| done]. by eapply segments_of_step.
Qed.

Lemma segments_of_loop signs segments :
  add_all [] signs = Done segments -> holds signs segments.
Proof. apply (segments_of_rest signs []), segments_of_start. Qed.

(** The loop stops at the first sign whose distance raises, and only
    there. *)
Lemma add_signs_Failed signs : forall segments f,
  add_all segments signs = Failed f ->
  exists before s after e,
    signs = before ++ s :: after /\
    Forall (fun s => exists dist, distance s = Ok dist) before /\
    distance s = Raise e /\ f = Uncaught e.
Proof.
  induction signs as [| s signs IH]; intros segments f Hrun; cbn in Hrun;
    [discriminate |].
  unfold add_sign in Hrun.
  destruct (_haversine_km lat lng (Sign.lat s) (Sign.lng s)) as [dist | e] eqn:Hdist.
  - assert (exists segments1, add_all segments1 signs = Failed f)
      as (segments1 & Hrest).
    { destruct (Qlt_bool radius_km dist); cbn in Hrun; by eexists. }
    apply IH in Hrest as (before & s' & after & e & -> & Hbefore & Hs' & ->).
    exists (s :: before), s', after, e. split; [done |].
    split; [| done]. constructor; [by exists dist | done].
  - cbn in Hrun. injection Hrun as <-.
    exists [], s, signs, e. by repeat split.
Qed.

Lemma add_signs_Done signs : forall segments segments',
  add_all segments signs = Done segments' ->
  Forall (fun s => exists dist, distance s = Ok dist) signs.
Proof.
  induction signs as [| s signs IH]; intros segments segments' Hrun; cbn in Hrun;
    [constructor |].
  unfold add_sign in Hrun.
  destruct (_haversine_km lat lng (Sign.lat s) (Sign.lng s)) as [dist | e] eqn:Hdist;
    [| discriminate].
  constructor; [by exists dist |].
  destruct (Qlt_bool radius_km dist); cbn in Hrun; by eapply IH.
Qed.

(** ** The loop over the segments *)

Lemma sorted_first_last {A} (R : A -> A -> Prop) (l : list A) x z :
  (forall a, R a a) ->
  StronglySorted R l -> head l = Some x -> last l = Some z ->
  forall a, a ∈ l -> R x a /\ R a z.
Proof.
  intros Hrefl Hsorted. revert x z.
  induction Hsorted as [| y l Hl IH Hy]; intros x z Hx Hz a Ha; [done |].
  cbn in Hx. injection Hx as <-. rewrite Forall_forall in Hy.
  destruct l as [| y' l].
  - cbn in Hz. injection Hz as <-. apply list_elem_of_singleton in Ha as ->. done.
  - assert (last (y' :: l) = Some z) as Hz' by done.
    assert (z ∈ y' :: l) as Hzin.
    { apply last_Some in Hz' as (l' & ->). apply elem_of_app. right. left. }
    apply elem_of_cons in Ha as [-> | Ha].
    + split; [done | by apply Hy].
    + split; [by apply Hy |]. by apply (IH y' z).
Qed.

Lemma street_of_spec seg :
  Segment.coords seg <> [] ->
  exists st, street_of seg = Done st /\
    Street.on_street st = Segment.on_street seg /\
    Street.from_street st = Segment.from_street seg /\
    Street.to_street st = Segment.to_street seg /\
    Street.side st = Segment.side seg /\
    Street.borough st = Segment.borough seg /\
    Street.description st = Segment.description seg /\
    Street.hours_until_cleaning st = Segment.hours_until_cleaning seg /\
    Street.start st ∈ Segment.coords seg /\
    Street.end_ st ∈ Segment.coords seg /\
    forall c, c ∈ Segment.coords seg ->
      coord_lt c (Street.start st) = false /\ coord_lt (Street.end_ st) c = false.
Proof.
  intros Hne. unfold street_of.
  destruct (decide (2 <= length (Segment.coords seg))%nat) as [Hmany | Hone].
  - pose proof (stable_sort_Permutation coord_lt (Segment.coords seg)) as Hperm.
    pose proof (stable_sort_sorted coord_lt (fun a b => coord_lt b a = false)
                  (fun x y => coord_lt_asym x y) (fun x y H => H)
                  (fun x y z => coord_le_trans x y z) (Segment.coords seg))
      as Hsorted.
    destruct (stable_sort coord_lt (Segment.coords seg)) as [| c0 sorted] eqn:Hs.
    { apply Permutation_nil_l in Hperm. by destruct Hne. }
    assert (exists z, last (c0 :: sorted) = Some z) as (z & Hz).
    { destruct (last (c0 :: sorted)) eqn:Hl; [by eexists |].
      by apply last_None in Hl. }
    unfold first_of, last_of. rewrite Hz. cbn.
    eexists. split; [done |]. cbn. do 7 (split; [done |]).
    assert (z ∈ c0 :: sorted) as Hzin.
    { apply last_Some in Hz as (l' & ->). apply elem_of_app. right. left. }
    split; [rewrite <- Hperm; left |]. split; [by rewrite <- Hperm |].
    intros c Hc. rewrite <- Hperm in Hc.
    by apply (sorted_first_last _ _ c0 z coord_le_refl Hsorted eq_refl Hz c Hc).
  - destruct (Segment.coords seg) as [| c0 [| c1 rest]] eqn:Hcoords;
      [done | | cbn in Hone; lia].
    cbn. eexists. split; [done |]. cbn. do 7 (split; [done |]).
    split; [left |]. split; [left |].
    intros c Hc. apply list_elem_of_singleton in Hc as ->.
    split; apply coord_le_refl.
Qed.

Lemma mapM_Done {A B} (f : A -> attempt B) (l : list A) :
  (forall x, x ∈ l -> exists y, f x = Done y) ->
  exists ys, mapM f l = Done ys /\ Forall2 (fun x y => f x = Done y) l ys.
Proof.
  induction l as [| x l IH]; intros Hall.
  - exists []. split; [done | constructor].
  - destruct (Hall x) as (y & Hy); [left |].
    destruct IH as (ys & Hys & Hrel); [intros z Hz; apply Hall; by right |].
    exists (y :: ys). split; [| by constructor].
    cbn. rewrite Hy. cbn. rewrite Hys. done.
Qed.

Local Abbreviation run :=
  (streets_of_signs _haversine_km round1 clock).

(** Once the loop over the signs is through, the rest of the body
    cannot fail: every item of the dict has a coordinate. *)
Lemma streets_of_signs_spec signs segments :
  add_all [] signs = Done segments ->
  exists streets,
    run signs lat lng radius_km =
    Done (take 500 (stable_sort
      (fun r' r => Qlt_bool (Street.hours_until_cleaning r)
                            (Street.hours_until_cleaning r')) streets)) /\
    Forall2 (fun item st => street_of item.2 = Done st) segments streets.
Proof.
  intros Hloop. unfold streets_of_signs. rewrite Hloop. cbn [mbind attempt_bind].
  destruct (segments_of_loop signs segments Hloop) as (_ & _ & Hitems).
  destruct (mapM_Done street_of segments.*2) as (streets & -> & Hrel).
  { intros seg Hseg. apply list_elem_of_fmap in Hseg as ([k seg'] & -> & Hin).
    apply list_elem_of_lookup in Hin as (i & Hi).
    destruct (Hitems i k seg' Hi) as (_ & Hcoords & s & rest & Hg & _).
    destruct (street_of_spec seg') as (st & Hst & _); [| by exists st].
    cbn. rewrite Hcoords, Hg. done. }
  exists streets. split; [done |].
  by apply Forall2_fmap_l in Hrel.
Qed.

(** A list of streets comes back only from a loop that went through. *)
Lemma streets_of_signs_Done signs results :
  run signs lat lng radius_km = Done results ->
  exists segments streets,
    add_all [] signs = Done segments /\
    holds signs segments /\
    results = take 500 (stable_sort
      (fun r' r => Qlt_bool (Street.hours_until_cleaning r)
                            (Street.hours_until_cleaning r')) streets) /\
    Forall2 (fun item st => street_of item.2 = Done st) segments streets.
Proof.
  intros Hrun.
  destruct (add_all [] signs) as [segments | f] eqn:Hloop.
  - destruct (streets_of_signs_spec signs segments Hloop) as (streets & Heq & Hrel).
    rewrite Heq in Hrun. injection Hrun as <-.
    exists segments, streets. split; [done |].
    split; [by apply segments_of_loop | done].
  - unfold streets_of_signs in Hrun. rewrite Hloop in Hrun. discriminate.
Qed.

(** Every street returned stems from one item of the dict. *)
Lemma street_origin signs results st :
  run signs lat lng radius_km = Done results ->
  st ∈ results ->
  exists segments i seg,
    holds signs segments /\
    segments !! i = Some (street_key st, seg) /\
    street_of seg = Done st /\ Segment.coords seg <> [].
Proof.
  intros Hrun Hst.
  destruct (streets_of_signs_Done signs results Hrun)
    as (segments & streets & _ & Hholds & -> & Hrel).
  apply elem_of_take in Hst as (j & Hj & _).
  apply list_elem_of_lookup_2 in Hj.
  rewrite stable_sort_Permutation in Hj.
  apply list_elem_of_lookup in Hj as (i & Hi).
  destruct (Forall2_lookup_r _ _ _ _ _ Hrel Hi) as ([k seg] & Hseg & Hof).
  destruct Hholds as (Hnd & Hkeys & Hitems).
  destruct (Hitems i k seg Hseg) as (Hk & Hcoords & s & rest & Hg & _).
  assert (Segment.coords seg <> []) as Hne by (rewrite Hcoords, Hg; done).
  destruct (street_of_spec seg Hne) as (st' & Hst' & H1 & H2 & H3 & H4 & _).
  cbn in Hof. assert (st' = st) as -> by congruence.
  exists segments, i, seg. split; [done |]. split; [| done].
  unfold street_key. by rewrite H1, H2, H3, H4, Hk.
Qed.

(** X14 (what can go wrong): the body of [get_streets] raises only where
    [_haversine_km] does.  If the distance to every sign is computed, the
    body ends with at most 500 streets, and [coords[0]] is never taken of
    an empty list; otherwise it ends with the exception of the first sign
    whose distance raises. *)
Theorem streets_fail_only_by_distance (signs : list Sign.t) :
  (Forall (fun s => exists dist, distance s = Ok dist) signs ->
   exists results,
     run signs lat lng radius_km = Done results /\ (length results <= 500)%nat) /\
  (forall f, run signs lat lng radius_km = Failed f ->
   exists before s after e,
     signs = before ++ s :: after /\
     Forall (fun s => exists dist, distance s = Ok dist) before /\
     distance s = Raise e /\ f = Uncaught e) /\
  (forall results, run signs lat lng radius_km = Done results ->
   (length results <= 500)%nat /\
   Forall (fun s => exists dist, distance s = Ok dist) signs).
Proof.
  destruct (add_all [] signs) as [segments | f0] eqn:Hloop.
  - destruct (streets_of_signs_spec signs segments Hloop) as (streets & Heq & _).
    assert (forall results, run signs lat lng radius_km = Done results ->
              (length results <= 500)%nat) as Hshort.
    { intros results Hrun. rewrite Heq in Hrun. injection Hrun as <-.
      rewrite length_take. lia. }
    split; [| split].
    + intros _. eexists. split; [done |]. rewrite length_take. lia.
    + intros f Hrun. rewrite Heq in Hrun. discriminate.
    + intros results Hrun. split; [by apply Hshort | by eapply add_signs_Done].
  - assert (run signs lat lng radius_km = Failed f0) as Hrun
      by (unfold streets_of_signs; by rewrite Hloop).
    apply add_signs_Failed in Hloop
      as (before & s & after & e & Hsigns & Hbefore & Hs & Hf).
    split; [| split].
    + intros Hall. exfalso. rewrite Hsigns in Hall.
      apply Forall_app in Hall as [_ Hall].
      apply Forall_cons in Hall as [(dist & Hdist) _]. congruence.
    + intros f Hf'. rewrite Hrun in Hf'. injection Hf' as <-.
      by exists before, s, after, e.
    + intros results Hrun'. rewrite Hrun in Hrun'. discriminate.
Qed.

Lemma street_keys segments streets signs :
  holds signs segments ->
  Forall2 (fun item st => street_of item.2 = Done st) segments streets ->
  street_key <$> streets = segments.*1.
Proof.
  intros (_ & _ & Hitems) Hrel.
  assert (forall k seg, (k, seg) ∈ segments ->
            (Segment.on_street seg, Segment.from_street seg,
             Segment.to_street seg, Segment.side seg) = k /\
            Segment.coords seg <> []) as Hall.
  { intros k seg Hin. apply list_elem_of_lookup in Hin as (i & Hi).
    destruct (Hitems i k seg Hi) as (Hk & Hcoords & s & rest & Hg & _).
    split; [done |]. by rewrite Hcoords, Hg. }
  clear Hitems. induction Hrel as [| [k seg] st segments streets Hof Hrel IH];
    [done |].
  cbn. f_equal.
  - destruct (Hall k seg) as (Hk & Hne); [left |].
    destruct (street_of_spec seg Hne) as (st' & Hst' & H1 & H2 & H3 & H4 & _).
    cbn in Hof. assert (st' = st) as -> by congruence.
    unfold street_key. by rewrite H1, H2, H3, H4.
  - apply IH. intros k' seg' Hin. apply Hall. by right.
Qed.

(** X15 (one street per segment): the streets returned have pairwise
    different keys, each the key of some sign that passes the distance
    test; and when fewer than 500 streets come back, every sign that passes
    the test has its street among them. *)
Theorem one_street_per_segment (signs : list Sign.t) (results : list Street.t) :
  run signs lat lng radius_km = Done results ->
  NoDup (street_key <$> results) /\
  (forall st, st ∈ results -> group (street_key st) signs <> []) /\
  ((length results < 500)%nat ->
   forall s, s ∈ signs -> inside s = true -> key_of s ∈ street_key <$> results).
Proof.
  intros Hrun.
  destruct (streets_of_signs_Done signs results Hrun)
    as (segments & streets & _ & Hholds & -> & Hrel).
  pose proof (street_keys segments streets signs Hholds Hrel) as Hstreets.
  destruct Hholds as (Hnd & Hkeys & _).
  set (sorted := stable_sort _ streets).
  assert (sorted ≡ₚ streets) as Hperm by apply stable_sort_Permutation.
  split; [| split].
  - rewrite fmap_take. eapply sublist_NoDup; [| apply sublist_take].
    by rewrite Hperm, Hstreets.
  - intros st Hst. apply Hkeys. rewrite <- Hstreets, <- Hperm.
    apply list_elem_of_fmap. exists st. split; [done |].
    eapply elem_of_take in Hst as (j & Hj & _). by eapply list_elem_of_lookup_2.
  - intros Hfew s Hs Hin.
    assert (take 500 sorted = sorted) as ->.
    { apply take_ge. rewrite length_take in Hfew. lia. }
    rewrite Hperm, Hstreets. apply Hkeys.
    assert (s ∈ group (key_of s) signs) as Hgroup.
    { unfold group_of. apply list_elem_of_In, List.filter_In.
      split; [by apply list_elem_of_In |].
      by rewrite Hin, bool_decide_eq_true_2. }
    intros Hnil. rewrite Hnil in Hgroup. by apply not_elem_of_nil in Hgroup.
Qed.

(** X16 (longest wait first): the streets come back in descending order
    of their shown hours. *)
Theorem streets_sorted_by_hours (signs : list Sign.t) (results : list Street.t) :
  run signs lat lng radius_km = Done results ->
  StronglySorted
    (fun a b => (Street.hours_until_cleaning b <= Street.hours_until_cleaning a)%Q)
    results.
Proof.
  intros Hrun.
  destruct (streets_of_signs_Done signs results Hrun)
    as (segments & streets & _ & _ & -> & _).
  eapply (StronglySorted_app_1_l _ _ (drop 500 _)). rewrite take_drop.
  apply stable_sort_sorted.
  - intros x y Hlt. apply Qlt_bool_true in Hlt. by apply Qlt_le_weak.
  - intros x y Hge. by apply Qlt_bool_false in Hge.
  - intros x y z Hxy Hyz. by eapply Qle_trans.
Qed.

(** X17 (extent of a street): the start and the end of a street returned
    are coordinates of signs of its segment that pass the distance test,
    and every such sign lies between them in the order of [(lat, lng)]. *)
Theorem street_extent (signs : list Sign.t) (results : list Street.t)
    (st : Street.t) :
  run signs lat lng radius_km = Done results ->
  st ∈ results ->
  (exists s, s ∈ group (street_key st) signs /\ coord_of s = Street.start st) /\
  (exists s, s ∈ group (street_key st) signs /\ coord_of s = Street.end_ st) /\
  forall s, s ∈ group (street_key st) signs ->
    coord_lt (coord_of s) (Street.start st) = false /\
    coord_lt (Street.end_ st) (coord_of s) = false.
Proof.
  intros Hrun Hst.
  destruct (street_origin signs results st Hrun Hst)
    as (segments & i & seg & (_ & _ & Hitems) & Hi & Hof & Hne).
  destruct (Hitems i _ seg Hi) as (_ & Hcoords & _).
  destruct (street_of_spec seg Hne)
    as (st' & Hst' & _ & _ & _ & _ & _ & _ & _ & Hstart & Hend & Hbetween).
  assert (st' = st) as -> by congruence.
  rewrite Hcoords in Hstart, Hend.
  apply list_elem_of_fmap in Hstart as (s1 & Hs1 & Hin1).
  apply list_elem_of_fmap in Hend as (s2 & Hs2 & Hin2).
  split; [by exists s1 |]. split; [by exists s2 |].
  intros s Hs. apply Hbetween. rewrite Hcoords.
  apply list_elem_of_fmap. by exists s.
Qed.

(** X18 (the first sign speaks for the street): the borough, the
    description and the shown hours of a street returned are those of the
    first sign of its segment that passes the distance test; the hours are
    the calculator's answer for that sign's schedule at some reading of the
    clock, with [inf] shown as 999.0. *)
Theorem first_sign_decides (signs : list Sign.t) (results : list Street.t)
    (st : Street.t) :
  run signs lat lng radius_km = Done results ->
  st ∈ results ->
  exists s rest i,
    group (street_key st) signs = s :: rest /\
    Street.borough st = Sign.borough s /\
    Street.description st = Sign.description s /\
    Street.hours_until_cleaning st =
    shown_hours round1 (hours_until_next_cleaning (Sign.schedule s) (clock i)).
Proof.
  intros Hrun Hst.
  destruct (street_origin signs results st Hrun Hst)
    as (segments & i & seg & (_ & _ & Hitems) & Hi & Hof & Hne).
  destruct (Hitems i _ seg Hi) as (_ & _ & s & rest & Hg & Hb & Hd & Hh).
  destruct (street_of_spec seg Hne)
    as (st' & Hst' & _ & _ & _ & _ & Hb' & Hd' & Hh' & _).
  assert (st' = st) as -> by congruence.
  exists s, rest, i. split; [done |]. by rewrite Hb', Hd', Hh'.
Qed.

End Streets.

(** ** Examples *)

Lemma fetched_signs_are_parsed_witness :
  Main.signs Main.sample_fetched.2 = Main.sample_fetched.1 /\
  forall s, s ∈ Main.sample_fetched.1 ->
    parse_sign_description (Main.Sign.description s)
    = Ok (Some (Main.Sign.schedule s)) /\
    contains (str "SANITATION BROOM SYMBOL") (upper (Main.Sign.description s)) = true.
Proof.
  apply (fetched_signs_are_parsed Main.sample_server Main.sample_transform Qminus 3
           Main._cache Main.sample_fetched.2 10 11 Main.sample_fetched.1).
  - intros s Hs. by apply not_elem_of_nil in Hs.
  - vm_compute. reflexivity.
Defined.

Lemma fresh_cache_is_served_witness :
  Main._fetch_signs (fun _ => Main.Failed Main.HTTPStatusError) (fun _ _ => None)
    Qminus 0 Main.sample_fetched.2 3000 3001
  = Some (Main.Done (Main.sample_fetched.1, Main.sample_fetched.2)).
Proof.
  apply (fresh_cache_is_served Main.sample_server _ Main.sample_transform _ Qminus 3 0
           Main._cache Main.sample_fetched.2 10 11 3000 3001 Main.sample_fetched.1).
  - vm_compute. reflexivity.
  - vm_compute. discriminate.
  - vm_compute. reflexivity.
Defined.

Lemma one_street_per_segment_witness :
  NoDup (Main.street_key <$> Main.sample_streets) /\
  (forall st, st ∈ Main.sample_streets ->
     Main.group_of Main.sample_distance 0 0 5 (Main.street_key st) Main.sample_signs
     <> []) /\
  ((length Main.sample_streets < 500)%nat ->
   forall s, s ∈ Main.sample_signs ->
     Main.within Main.sample_distance 0 0 5 s = true ->
     Main.key_of s ∈ Main.street_key <$> Main.sample_streets).
Proof.
  apply (one_street_per_segment Main.sample_distance (fun q => q) Main.sample_clock).
  vm_compute. reflexivity.
Defined.

Lemma streets_sorted_by_hours_witness :
  StronglySorted
    (fun a b => (Main.Street.hours_until_cleaning b
                 <= Main.Street.hours_until_cleaning a)%Q)
    Main.sample_streets.
Proof.
  apply (streets_sorted_by_hours Main.sample_distance (fun q => q) Main.sample_clock
           0 0 5 Main.sample_signs).
  vm_compute. reflexivity.
Defined.

Lemma street_extent_witness :
  exists st, head Main.sample_streets = Some st /\
  (exists s, s ∈ Main.group_of Main.sample_distance 0 0 5 (Main.street_key st)
                   Main.sample_signs /\
             (Main.Sign.lat s, Main.Sign.lng s) = Main.Street.start st) /\
  (exists s, s ∈ Main.group_of Main.sample_distance 0 0 5 (Main.street_key st)
                   Main.sample_signs /\
             (Main.Sign.lat s, Main.Sign.lng s) = Main.Street.end_ st) /\
  forall s, s ∈ Main.group_of Main.sample_distance 0 0 5 (Main.street_key st)
                  Main.sample_signs ->
    Main.coord_lt (Main.Sign.lat s, Main.Sign.lng s) (Main.Street.start st) = false /\
    Main.coord_lt (Main.Street.end_ st) (Main.Sign.lat s, Main.Sign.lng s) = false.
Proof.
  assert (exists st, head Main.sample_streets = Some st) as (st & Hst)
    by (vm_compute; eauto).
  exists st. split; [done |].
  apply (street_extent Main.sample_distance (fun q => q) Main.sample_clock
           0 0 5 Main.sample_signs Main.sample_streets).
  - vm_compute. reflexivity.
  - by apply head_Some_elem_of.
Defined.

Lemma first_sign_decides_witness :
  exists st, head Main.sample_streets = Some st /\
  exists s rest i,
    Main.group_of Main.sample_distance 0 0 5 (Main.street_key st) Main.sample_signs
    = s :: rest /\
    Main.Street.borough st = Main.Sign.borough s /\
    Main.Street.description st = Main.Sign.description s /\
    Main.Street.hours_until_cleaning st =
    Main.shown_hours (fun q => q)
      (hours_until_next_cleaning (Main.Sign.schedule s) (Main.sample_clock i)).
Proof.
  assert (exists st, head Main.sample_streets = Some st) as (st & Hst)
    by (vm_compute; eauto).
  exists st. split; [done |].
  apply (first_sign_decides Main.sample_distance (fun q => q) Main.sample_clock
           0 0 5 Main.sample_signs Main.sample_streets).
  - vm_compute. reflexivity.
  - by apply head_Some_elem_of.
Defined.


Lemma streets_fail_only_by_distance_witness :
  exists results,
    Main.streets_of_signs Main.sample_distance (fun q => q) Main.sample_clock
      Main.sample_signs 0 0 5 = Main.Done results /\
    (length results <= 500)%nat.
Proof.
  apply (proj1 (streets_fail_only_by_distance Main.sample_distance (fun q => q)
                  Main.sample_clock 0 0 5 Main.sample_signs)).
  repeat constructor; by eexists.
Defined.

(** The coordinates of a row reach the projection as they are written,
    and a sign whose distance raises ends the request. *)
Example sample_fetched_coordinates :
  (fun s => (Main.Sign.lng s, Main.Sign.lat s)) <$> Main.sample_fetched.1
  = [(inject_Z 987654, inject_Z 204060)].
Proof. reflexivity. Qed.

Example distance_error_ends_the_request :
  Main.streets_of_signs Main.sample_distance (fun q => q) Main.sample_clock
    (Main.sample_signs ++
     [Main.sample_sign "E" (-1) 0 "SANITATION BROOM SYMBOL MONDAY 8AM-9AM"
        (mkSchedule [0] 8 0 9 0)]) 0 0 5
  = Main.Failed (Main.Uncaught ValueError).
Proof. vm_compute. reflexivity. Qed.
